(** * Word error rate metric and greedy CTC decoder of the wav2vec2
      quantization notebook

    Shallow embedding of [decode_logits] and of the class [MetricWER] of
    [notebooks/107-speech-recognition-quantization], with the properties
    of the accompanying specification stated over it. *)

From Stdlib Require Import ZArith QArith Lia Lqa Ascii String.
From stdpp Require Import base option list strings gmap.

Local Open Scope Z_scope.

(** ** Exceptions *)

(** The Python exceptions the modelled code can raise. *)
Inductive exn : Set :=
| ValueError
| TypeError
| KeyError
| IndexError
| AssertionError
| ZeroDivisionError.

Global Instance exn_eq_dec : EqDecision exn.
Proof. solve_decision. Defined.

(** Outcome of an expression that may raise. *)
Inductive result (A : Type) : Type :=
| Ok (a : A)
| Raise (e : exn).
Arguments Ok {A} a.
Arguments Raise {A} e.

Global Instance result_ret : MRet result := λ A a, Ok a.
Global Instance result_bind : MBind result := λ A B f r,
  match r with
  | Ok a => f a
  | Raise e => Raise e
  end.

Global Instance result_fmap : FMap result := λ A B f r,
  match r with
  | Ok a => Ok (f a)
  | Raise e => Raise e
  end.

Definition is_ok {A} (r : result A) : bool :=
  match r with Ok _ => true | Raise _ => false end.

(** [for x in xs: body], the loop state threaded through the body. *)
Fixpoint for_in {I S : Type} (xs : list I) (body : I → S → result S) (s : S)
  : result S :=
  match xs with
  | [] => Ok s
  | x :: xs' => s' ← body x s; for_in xs' body s'
  end.

(** [range(lo, hi)]. *)
Definition range (lo hi : nat) : list nat := seq lo (hi - lo).

(** [l[i]] on a Python list, for an index that is not negative. *)
Definition list_getitem {A} (l : list A) (i : nat) : result A :=
  match l !! i with
  | Some x => Ok x
  | None => Raise IndexError
  end.

(** ** The table of [_editdistance_eval]

    [distance] is a two-dimensional numpy array of [dtype=int].  Its cells
    are modelled as [Z]: every cell the routine writes is the distance of
    two prefixes, which lies between 0 and the larger of the two lengths
    (lemmas [fill_cell_filled] and [lev_bounds] below), so the 64-bit range
    is not left for any pair of lists whose table could be allocated. *)
Module Table.

Abbreviation t := (list (list Z)).

(** [np.zeros((r, c), dtype=int)] *)
Definition zeros (r c : nat) : t := replicate r (replicate c 0).

(** [np.arange(lo, hi)] *)
Definition arange (lo hi : nat) : list Z := Z.of_nat <$> range lo hi.

(** [d[:, 0] = vals], for [vals] with one entry per row. *)
Definition set_col0 (d : t) (vals : list Z) : t :=
  zip_with (λ row v, <[0%nat := v]> row) d vals.

(** [d[0, :] = vals], for [vals] as long as a row. *)
Definition set_row0 (d : t) (vals : list Z) : t := <[0%nat := vals]> d.

(** [d[i][j]]; numpy raises [IndexError] outside the array. *)
Definition get (d : t) (i j : nat) : result Z :=
  match d !! i with
  | Some row =>
      match row !! j with
      | Some v => Ok v
      | None => Raise IndexError
      end
  | None => Raise IndexError
  end.

(** [d[i][j] = v] *)
Definition set (d : t) (i j : nat) (v : Z) : result t :=
  match d !! i with
  | Some row =>
      if decide (j < length row)%nat
      then Ok (<[i := <[j := v]> row]> d)
      else Raise IndexError
  | None => Raise IndexError
  end.

End Table.

(** Python's [min(x, y, z)]. *)
Definition min3 (x y z : Z) : Z := Z.min x (Z.min y z).

Section EditDistance.

(** The tokens; the routine only compares them with [==]. *)
Context {A : Type} `{EqDecision A}.

Definition subst_cost (s t : A) : Z := if decide (s = t) then 0 else 1.

(** The body of the inner loop: one cell of the table. *)
Definition fill_cell (source target : list A) (i j : nat) (distance : Table.t)
  : result Table.t :=
  s ← list_getitem source (i - 1);
  t ← list_getitem target (j - 1);
  let cost := subst_cost s t in
  up ← Table.get distance (i - 1) j;
  left ← Table.get distance i (j - 1);
  diag ← Table.get distance (i - 1) (j - 1);
  Table.set distance i j (min3 (up + 1) (left + 1) (diag + cost)).

Definition fill_row (source target : list A) (m i : nat) (distance : Table.t)
  : result Table.t :=
  for_in (range 1 (m + 1)) (fill_cell source target i) distance.

(** [MetricWER._editdistance_eval] *)
Definition _editdistance_eval (source target : list A) : result Z :=
  let n := length source in
  let m := length target in
  let distance := Table.zeros (n + 1) (m + 1) in
  let distance := Table.set_col0 distance (Table.arange 0 (n + 1)) in
  let distance := Table.set_row0 distance (Table.arange 0 (m + 1)) in
  distance ← for_in (range 1 (n + 1)) (fill_row source target m) distance;
  Table.get distance n m.

End EditDistance.

(** ** Python strings

    A [str] is modelled as a [string] of code points below 256 (the
    transcripts of the data set and the alphabet are ASCII). *)

Definition code (c : ascii) : nat := nat_of_ascii c.

(** [c.isspace()] *)
Definition isspace (c : ascii) : bool :=
  let n := code c in
  ((9 <=? n) && (n <=? 13) || (28 <=? n) && (n <=? 32)
   || (n =? 133) || (n =? 160))%nat.

(** [c.isupper()] for a cased character. *)
Definition isupper (c : ascii) : bool :=
  let n := code c in
  ((65 <=? n) && (n <=? 90)
   || (192 <=? n) && (n <=? 222) && negb (n =? 215))%nat.

Definition lower_char (c : ascii) : ascii :=
  if isupper c then ascii_of_nat (code c + 32) else c.

(** [s.lower()] *)
Fixpoint str_lower (s : string) : string :=
  match s with
  | EmptyString => EmptyString
  | String c s' => String (lower_char c) (str_lower s')
  end.

Definition str_is_empty (s : string) : bool :=
  match s with EmptyString => true | String _ _ => false end.

Fixpoint str_lstrip (s : string) : string :=
  match s with
  | EmptyString => EmptyString
  | String c s' => if isspace c then str_lstrip s' else s
  end.

Fixpoint str_rstrip (s : string) : string :=
  match s with
  | EmptyString => EmptyString
  | String c s' =>
      let r := str_rstrip s' in
      if isspace c && str_is_empty r then EmptyString else String c r
  end.

(** [s.strip()] *)
Definition str_strip (s : string) : string := str_rstrip (str_lstrip s).

(** The scan behind [s.split()]: [cur] is the word read so far. *)
Fixpoint split_scan (s cur : string) : list string :=
  match s with
  | EmptyString => if str_is_empty cur then [] else [cur]
  | String c s' =>
      if isspace c
      then (if str_is_empty cur then split_scan s' EmptyString
            else cur :: split_scan s' EmptyString)
      else split_scan s' (cur +:+ String c EmptyString)
  end.

(** [s.split()]: the maximal runs of characters that are not whitespace. *)
Definition str_split (s : string) : list string := split_scan s EmptyString.

(** The scan behind [s.split(sep)] for a separator of one character. *)
Fixpoint split_sep_scan (sep : ascii) (s cur : string) : list string :=
  match s with
  | EmptyString => [cur]
  | String c s' =>
      if decide (c = sep)
      then cur :: split_sep_scan sep s' EmptyString
      else split_sep_scan sep s' (cur +:+ String c EmptyString)
  end.

(** [s.split(sep)]: every occurrence of [sep] separates two fields, empty
    fields included. *)
Definition str_split_sep (sep : ascii) (s : string) : list string :=
  split_sep_scan sep s EmptyString.

(** [sep.join(l)] *)
Fixpoint str_join (sep : string) (l : list string) : string :=
  match l with
  | [] => EmptyString
  | [x] => x
  | x :: l' => x +:+ sep +:+ str_join sep l'
  end.

(** ** numpy arrays of scores

    A two-dimensional array of shape [(length data, shape1)].  Scores are
    rationals, which covers every finite float; NaN and the infinities are
    left out. *)
Record ndarray : Type := mk_ndarray {
  shape1 : nat;
  data : list (list Q)
}.

(** All rows have the width the shape announces. *)
Definition rectangular (a : ndarray) : Prop :=
  Forall (λ row, length row = shape1 a) (data a).

(** The scan of [argmax]: the first index holding the largest value. *)
Fixpoint argmax_scan (best : Q) (best_i i : nat) (row : list Q) : nat :=
  match row with
  | [] => best_i
  | x :: row' =>
      if Qlt_le_dec best x
      then argmax_scan x i (S i) row'
      else argmax_scan best best_i (S i) row'
  end.

Definition argmax_row (row : list Q) : result nat :=
  match row with
  | [] => Raise ValueError
  | x :: row' => Ok (argmax_scan x 0 1 row')
  end.

(** [np.argmax(a, -1)]: fails on an empty last axis. *)
Definition np_argmax (a : ndarray) : result (list nat) :=
  if decide (shape1 a = 0%nat) then Raise ValueError
  else mapM argmax_row (data a).

(** What [np.squeeze] makes of a vector: a vector of length one becomes an
    array without dimensions. *)
Inductive squeezed : Type :=
| Scalar0d (x : nat)
| Vector (xs : list nat).

Definition np_squeeze (xs : list nat) : squeezed :=
  match xs with
  | [x] => Scalar0d x
  | _ => Vector xs
  end.

(** Iterating over an array: an array without dimensions is not iterable. *)
Definition iterate (a : squeezed) : result (list nat) :=
  match a with
  | Scalar0d _ => Raise TypeError
  | Vector xs => Ok xs
  end.

(** [enumerate(l)] *)
Definition enumerate {A} (l : list A) : list (nat * A) :=
  zip (seq 0 (length l)) l.

(** [dict(enumerate(l))] *)
Definition dict_enumerate {V} (l : list V) : gmap nat V :=
  list_to_map (enumerate l).
Global Arguments dict_enumerate : simpl never.

(** [d[k]] on a dict. *)
Definition dict_getitem {K V} `{Countable K} (d : gmap K V) (k : K) : result V :=
  match d !! k with
  | Some v => Ok v
  | None => Raise KeyError
  end.

(** [itertools.groupby(l)]: the maximal runs of equal consecutive elements,
    each with its key. *)
Fixpoint groupby {A} `{EqDecision A} (l : list A) : list (A * list A) :=
  match l with
  | [] => []
  | x :: l' =>
      match groupby l' with
      | (k, g) :: gs =>
          if decide (x = k) then (k, x :: g) :: gs
          else (x, [x]) :: (k, g) :: gs
      | [] => [(x, [x])]
      end
  end.

(** ** The class attributes of [MetricWER] *)

Definition alphabet : list string :=
  ["<pad>"; "<s>"; "</s>"; "<unk>"; "|";
   "e"; "t"; "a"; "o"; "n"; "i"; "h"; "s"; "r"; "d"; "l"; "u";
   "m"; "w"; "c"; "f"; "g"; "y"; "p"; "b"; "v"; "k"; "'"; "x"; "j"; "q"; "z"].
Definition words_delimiter : string := "|".
Definition pad_token : string := "<pad>".

(** ** [decode_logits] *)

Definition decode_logits (logits : ndarray) : result string :=
  let decoding_vocab := dict_enumerate alphabet in
  ids ← np_argmax logits;
  token_ids ← iterate (np_squeeze ids);
  tokens ← mapM (dict_getitem decoding_vocab) token_ids;
  let tokens := fst <$> groupby tokens in
  let tokens := filter (λ t, t ≠ pad_token) tokens in
  let res_string :=
    str_strip
      (str_join ""
         ((λ t, if decide (t ≠ words_delimiter) then t else " ") <$> tokens)) in
  let res_string := str_join " " (str_split_sep " " res_string) in
  let res_string := str_lower res_string in
  Ok res_string.

(** ** Numbers

    An integer is a Python [int] or a [numpy.int64]; the two differ in
    what a division by zero does and in overflow.  A finite float is
    modelled by the rational it is nearest to, in lowest terms: rounding is
    not modelled. *)
Inductive pyint : Type :=
| PyInt (z : Z)
| NpInt64 (z : Z).

Inductive pyfloat : Type :=
| Finite (q : Q)
| Infinity (negative : bool)
| NaN.

Inductive number : Type :=
| Int (x : pyint)
| Float (x : pyfloat).

Definition int_val (x : pyint) : Z :=
  match x with PyInt z => z | NpInt64 z => z end.

(** The value a 64-bit signed integer keeps of [z]. *)
Definition wrap64 (z : Z) : Z := (z + 2 ^ 63) mod 2 ^ 64 - 2 ^ 63.

(** [x + y] for [y] a [numpy.int64] and [x] a Python [int] in the 64-bit
    range or a [numpy.int64]: numpy's addition, which wraps around. *)
Definition add_int64 (x : pyint) (y : Z) : pyint :=
  NpInt64 (wrap64 (int_val x + y)).

Definition quotient (a b : Z) : pyfloat :=
  Finite (Qred (inject_Z a / inject_Z b)).

(** [x / y] for [y] a Python [int].  Python raises on a zero divisor; numpy
    warns and returns a NaN or an infinity. *)
Definition truediv (x : pyint) (y : Z) : result pyfloat :=
  match x with
  | PyInt a =>
      if decide (y = 0) then Raise ZeroDivisionError else Ok (quotient a y)
  | NpInt64 a =>
      if decide (y = 0)
      then Ok (if decide (a = 0) then NaN else Infinity (bool_decide (a < 0)))
      else Ok (quotient a y)
  end.

(** ** The accumulator [MetricWER] *)

Record MetricWER : Type := mk_MetricWER {
  _name : string;
  _sum_score : pyint;
  _sum_words : Z;
  _cur_score : number;
  _decoding_vocab : gmap nat string
}.

Definition set_sum_score (v : pyint) (self : MetricWER) : MetricWER :=
  mk_MetricWER (_name self) v (_sum_words self) (_cur_score self)
    (_decoding_vocab self).
Definition set_sum_words (v : Z) (self : MetricWER) : MetricWER :=
  mk_MetricWER (_name self) (_sum_score self) v (_cur_score self)
    (_decoding_vocab self).
Definition set_cur_score (v : number) (self : MetricWER) : MetricWER :=
  mk_MetricWER (_name self) (_sum_score self) (_sum_words self) v
    (_decoding_vocab self).

(** A method: it reads and writes the attributes of [self]; when it raises,
    the writes made so far stay. *)
Definition method (A : Type) : Type := MetricWER → result A * MetricWER.

Definition m_ret {A} (a : A) : method A := λ self, (Ok a, self).
Definition m_bind {A B} (c : method A) (k : A → method B) : method B :=
  λ self,
    match c self with
    | (Ok a, self') => k a self'
    | (Raise e, self') => (Raise e, self')
    end.
Definition m_lift {A} (r : result A) : method A := λ self, (r, self).
Definition m_get : method MetricWER := λ self, (Ok self, self).
Definition m_modify (f : MetricWER → MetricWER) : method unit :=
  λ self, (Ok tt, f self).

Declare Scope method_scope.
Delimit Scope method_scope with method.
Notation "x ⇐ c ;; k" := (m_bind c (λ x, k))
  (at level 100, c at next level, right associativity) : method_scope.
Notation "c ;; k" := (m_bind c (λ _, k))
  (at level 100, right associativity) : method_scope.

(** [assert b] *)
Definition py_assert (b : bool) : result unit :=
  if b then Ok tt else Raise AssertionError.

(** [for x in xs: body] inside a method. *)
Fixpoint m_for {I} (xs : list I) (body : I → method unit) : method unit :=
  match xs with
  | [] => m_ret tt
  | x :: xs' => (body x ;; m_for xs' body)%method
  end.

(** [MetricWER.__init__] *)
Definition __init__ : MetricWER :=
  {| _name := "WER";
     _sum_score := PyInt 0;
     _sum_words := 0;
     _cur_score := Int (PyInt 0);
     _decoding_vocab := dict_enumerate alphabet |}.

(** [MetricWER.value] *)
Definition value : method (gmap string number) :=
  (self ⇐ m_get ;;
   m_ret {[ _name self := _cur_score self ]})%method.

(** [MetricWER.avg_value] *)
Definition avg_value : method (gmap string number) :=
  (self ⇐ m_get ;;
   v ⇐ (if decide (_sum_words self ≠ 0)
        then m_lift (Float <$> truediv (_sum_score self) (_sum_words self))
        else m_ret (Int (PyInt 0))) ;;
   m_ret {[ _name self := v ]})%method.

(** [MetricWER._get_metric_per_sample] *)
Definition _get_metric_per_sample (annotation prediction : string)
  : method number :=
  (cur_score ⇐ m_lift (_editdistance_eval (str_split annotation)
                                          (str_split prediction)) ;;
   let cur_words := Z.of_nat (length (str_split annotation)) in
   self ⇐ m_get ;;
   m_modify (set_sum_score (add_int64 (_sum_score self) cur_score)) ;;
   self ⇐ m_get ;;
   m_modify (set_sum_words (_sum_words self + cur_words)) ;;
   ratio ⇐ m_lift (truediv (NpInt64 cur_score) cur_words) ;;
   m_modify (set_cur_score (Float ratio)) ;;
   result ⇐ (if decide (cur_words ≠ 0)
             then m_lift (Float <$> truediv (NpInt64 cur_score) cur_words)
             else m_ret (Int (PyInt 0))) ;;
   m_ret result)%method.

(** [MetricWER.update] *)
Definition update (output : list ndarray) (target : list string) : method unit :=
  (decoded ⇐ m_lift (mapM decode_logits output) ;;
   let target := str_lower <$> target in
   m_lift (py_assert (bool_decide (length output = length target))) ;;
   m_for (range 0 (length output)) (λ i,
     annotation ⇐ m_lift (list_getitem decoded i) ;;
     prediction ⇐ m_lift (list_getitem target i) ;;
     _get_metric_per_sample annotation prediction ;;
     m_ret tt))%method.

(** [MetricWER.reset] *)
Definition reset : method unit :=
  (m_modify (set_sum_score (PyInt 0)) ;;
   m_modify (set_sum_words 0))%method.

(** The states an accumulator can be in: those its public methods lead to
    from a fresh instance. *)
Inductive reachable : MetricWER → Prop :=
| reachable_init : reachable __init__
| reachable_update self output target :
    reachable self → reachable (update output target self).2
| reachable_reset self :
    reachable self → reachable (reset self).2.

(** ** The error kinds of the specification *)

Inductive error_kind : Set :=
| InvalidInput
| SizeMismatch.

(** The decoder's exceptions are precondition violations on its input; the
    failed assertion of [update] is the size mismatch. *)
Definition kind_of (e : exn) : option error_kind :=
  match e with
  | ValueError | TypeError | KeyError => Some InvalidInput
  | AssertionError => Some SizeMismatch
  | IndexError | ZeroDivisionError => None
  end.

(** ** Reference notions the properties are stated with *)

Section Levenshtein.

Context {A : Type} `{EqDecision A}.

(** An alignment of [a] with [b] and its cost: each token of [a] is
    deleted, each token of [b] inserted, or a token of [a] is matched
    with one of [b] (for free when they are equal), at unit costs. *)
Inductive edit : list A → list A → Z → Prop :=
| edit_nil : edit [] [] 0
| edit_delete x a b n : edit a b n → edit (x :: a) b (n + 1)
| edit_insert y a b n : edit a b n → edit a (y :: b) (n + 1)
| edit_match x y a b n : edit a b n → edit (x :: a) (y :: b) (n + subst_cost x y).

(** The Levenshtein distance by its textbook recursion. *)
Fixpoint lev (a b : list A) : Z :=
  match a with
  | [] => Z.of_nat (length b)
  | x :: a' =>
      (fix lev_row (b : list A) : Z :=
         match b with
         | [] => Z.of_nat (length a)
         | y :: b' =>
             min3 (lev a' b + 1) (lev_row b' + 1) (lev a' b' + subst_cost x y)
         end) b
  end.

(** [d] is the least cost of an alignment of [a] with [b]. *)
Definition is_distance (a b : list A) (d : Z) : Prop :=
  edit a b d ∧ ∀ n, edit a b n → d ≤ n.

End Levenshtein.

(** The number of whitespace-separated words of a string. *)
Definition word_count (s : string) : Z := Z.of_nat (length (str_split s)).

(** Two characters, and two strings, that differ in letter case only. *)
Definition char_eq_upto_case (c d : ascii) : Prop := lower_char c = lower_char d.

Fixpoint eq_upto_case (s t : string) : Prop :=
  match s, t with
  | EmptyString, EmptyString => True
  | String c s', String d t' => char_eq_upto_case c d ∧ eq_upto_case s' t'
  | _, _ => False
  end.

(** A logits matrix of the documented shape: one row per timestep, one
    column per symbol of the alphabet. *)
Definition timesteps (a : ndarray) : nat := length (data a).

Definition logits_shape (a : ndarray) : Prop :=
  rectangular a ∧ shape1 a = length alphabet.

(** A row whose largest score is at index [i], and the matrix whose rows
    select the indices [ids]. *)
Definition one_hot (width i : nat) : list Q :=
  (λ k, if decide (k = i) then 1%Q else 0%Q) <$> seq 0 width.

Definition logits_of (ids : list nat) : ndarray :=
  {| shape1 := length alphabet; data := one_hot (length alphabet) <$> ids |}.

(** *** The decoder as the specification words it *)

(** Runs of consecutive equal symbols collapsed to one occurrence. *)
Fixpoint collapse_runs {A} `{EqDecision A} (l : list A) : list A :=
  match l with
  | [] => []
  | x :: l' =>
      match l' with
      | y :: _ => if decide (x = y) then collapse_runs l' else x :: collapse_runs l'
      | [] => [x]
      end
  end.

(** Runs of several spaces collapsed to one space. *)
Fixpoint collapse_spaces (s : string) : string :=
  match s with
  | EmptyString => EmptyString
  | String c s' =>
      match s' with
      | String d _ =>
          if decide (c = " "%char ∧ d = " "%char) then collapse_spaces s'
          else String c (collapse_spaces s')
      | EmptyString => String c EmptyString
      end
  end.

(** The string the specification describes for a matrix of the documented
    shape: argmax symbol of each row, runs collapsed, padding removed,
    delimiters turned into spaces, stripped, spaces collapsed, lower-cased. *)
Definition decode_spec (logits : ndarray) : option string :=
  ids ← mapM (λ row, match argmax_row row with Ok i => Some i | Raise _ => None end)
             (data logits);
  symbols ← mapM (λ i, alphabet !! i) ids;
  let symbols := collapse_runs symbols in
  let symbols := filter (λ t, t ≠ pad_token) symbols in
  let text :=
    str_join "" ((λ t, if decide (t = words_delimiter) then " " else t) <$> symbols) in
  Some (str_lower (collapse_spaces (str_strip text))).

(** A matrix [decode_logits] accepts: of the documented shape, with a
    number of timesteps other than one. *)
Definition decodable (a : ndarray) : Prop :=
  logits_shape a ∧ timesteps a ≠ 1%nat.

(** *** What one sample does to the accumulator *)

(** numpy's [d / w] for [d] a [numpy.int64]. *)
Definition np_ratio (d w : Z) : pyfloat :=
  if decide (w = 0)
  then (if decide (d = 0) then NaN else Infinity (bool_decide (d < 0)))
  else quotient d w.

(** The accumulator after [_get_metric_per_sample annotation prediction]. *)
Definition sample_step (self : MetricWER) (pair : string * string) : MetricWER :=
  let d := lev (str_split pair.1) (str_split pair.2) in
  let w := word_count pair.1 in
  {| _name := _name self;
     _sum_score := add_int64 (_sum_score self) d;
     _sum_words := _sum_words self + w;
     _cur_score := Float (np_ratio d w);
     _decoding_vocab := _decoding_vocab self |}.

(** *** The table while it is filled *)

Definition cell (d : Table.t) (i j : nat) : option Z :=
  d !! i ≫= λ row, row !! j.

Definition has_shape (d : Table.t) (r c : nat) : Prop :=
  length d = r ∧ Forall (λ row, length row = c) d.

Section TableInvariant.

Context {A : Type} `{EqDecision A}.

(** The distance between the prefixes of lengths [i] and [j], as the
    recurrence of the table reaches it: from the last tokens. *)
Definition prefix_dist (a b : list A) (i j : nat) : Z :=
  lev (reverse (take i a)) (reverse (take j b)).

(** Before cell [(i, j)] is written: the shape is that of the allocation,
    and column 0, the rows above [i] and the cells of row [i] left of
    [j] hold the distances of the prefixes. *)
Definition filled (a b : list A) (i j : nat) (d : Table.t) : Prop :=
  has_shape d (S (length a)) (S (length b))
  ∧ ∀ i' j', (i' ≤ length a)%nat → (j' ≤ length b)%nat →
      (i' < i ∨ (i' = i ∧ j' < j) ∨ j' = 0)%nat →
      cell d i' j' = Some (prefix_dist a b i' j').

End TableInvariant.

(** ** Example inputs *)

Definition example_output : list ndarray :=
  [logits_of [6; 4; 5; 4; 6]%nat; logits_of [5; 5]%nat].
Definition example_target : list string := ["T e E"; "E"].
Definition example_state : MetricWER :=
  (update example_output example_target __init__).2.
(** A matrix with one column more than the alphabet has symbols, the
    largest score of each row in that column. *)
Definition wide_logits : ndarray :=
  {| shape1 := 33; data := [one_hot 33 32; one_hot 33 32] |}.


(** ** Totals over the samples of a call *)

(** The words of the decoded predictions, and the edit costs of the pairs
    (decoded prediction, lower-cased target), summed over a call. *)
Fixpoint total_words (decoded : list string) : Z :=
  match decoded with
  | [] => 0
  | s :: decoded' => word_count s + total_words decoded'
  end.

Fixpoint total_cost (pairs : list (string * string)) : Z :=
  match pairs with
  | [] => 0
  | p :: pairs' => lev (str_split p.1) (str_split p.2) + total_cost pairs'
  end.

(** The values a [numpy.int64] can hold. *)
Definition in_int64 (z : Z) : Prop := - 2 ^ 63 ≤ z < 2 ^ 63.

(** ** The stages of [decode_logits] *)

(** The token ids [decode_logits] iterates over (its line 2). *)
Definition token_ids_of (logits : ndarray) : result (list nat) :=
  ids ← np_argmax logits; iterate (np_squeeze ids).

(** The text [decode_logits] makes of the tokens (its lines 4 to 8). *)
Definition tokens_text (tokens : list string) : string :=
  let tokens := fst <$> groupby tokens in
  let tokens := filter (λ t, t ≠ pad_token) tokens in
  let res_string :=
    str_strip
      (str_join ""
         ((λ t, if decide (t ≠ words_delimiter) then t else " ") <$> tokens)) in
  let res_string := str_join " " (str_split_sep " " res_string) in
  str_lower res_string.

(** [decode_logits] without its line
    [res_string = ' '.join(res_string.split(' '))]. *)
Definition decode_logits_without_rejoin (logits : ndarray) : result string :=
  let decoding_vocab := dict_enumerate alphabet in
  ids ← np_argmax logits;
  token_ids ← iterate (np_squeeze ids);
  tokens ← mapM (dict_getitem decoding_vocab) token_ids;
  let tokens := fst <$> groupby tokens in
  let tokens := filter (λ t, t ≠ pad_token) tokens in
  let res_string :=
    str_strip
      (str_join ""
         ((λ t, if decide (t ≠ words_delimiter) then t else " ") <$> tokens)) in
  let res_string := str_lower res_string in
  Ok res_string.

(** The list with its element at position [k] repeated once more, next to
    itself (the list itself when it has no such position). *)
Fixpoint dup_at {A} (k : nat) (l : list A) {struct l} : list A :=
  match l with
  | [] => []
  | x :: l' =>
      match k with
      | O => x :: x :: l'
      | S k' => x :: dup_at k' l'
      end
  end.

(** The matrix with the timestep [k] repeated. *)
Definition repeat_timestep (k : nat) (a : ndarray) : ndarray :=
  {| shape1 := shape1 a; data := dup_at k (data a) |}.

(** ** [compute_wer] *)

Section ComputeWer.

(** [compute_wer] passes the model and the inputs of a sample on to
    [infer_fn] without looking at them.  A sample is [(label, inputs)]
    with [label = (index, transcript)]. *)
Context {Model Inputs : Type}.

Definition sample : Type := (nat * string) * Inputs.

(** The body of the loop of [compute_wer]. *)
Definition score_sample (model : Model)
    (infer_fn : Model → sample → result (list ndarray)) (s : sample)
  : method unit :=
  (output ⇐ m_lift (infer_fn model s) ;;
   update output [s.1.2])%method.

(** [compute_wer(dataset, model, infer_fn)], for [dataset] the samples
    the iteration yields. *)
Definition compute_wer (dataset : list sample) (model : Model)
    (infer_fn : Model → sample → result (list ndarray))
  : result (gmap string number) :=
  let wer := __init__ in
  ((m_for dataset (score_sample model infer_fn) ;; avg_value)%method wer).1.

(** Inference returns, for every sample, a batch of one matrix, which
    decodes to the string at the same position of [decoded]. *)
Definition single_batches (model : Model)
    (infer_fn : Model → sample → result (list ndarray))
    (dataset : list sample) (decoded : list string) : Prop :=
  Forall2 (λ s d, ∃ a, infer_fn model s = Ok [a] ∧ decode_logits a = Ok d)
    dataset decoded.

End ComputeWer.

(** ** [LibriSpeechDataLoader]

    The entries of [_ds] are [((counter, transcript), speech)], the speech
    a one-dimensional array.  Reading the files is not modelled. *)
Record LibriSpeechDataLoader : Type := mk_LibriSpeechDataLoader {
  samples_limit : Z;
  _data_dir : string;
  _ds : list ((nat * string) * list Q)
}.

(** [l[index]] on a Python list: a negative index counts from the end. *)
Definition py_list_getitem {A} (l : list A) (index : Z) : result A :=
  let n := Z.of_nat (length l) in
  let i := if decide (index < 0) then index + n else index in
  if decide (0 ≤ i < n) then list_getitem l (Z.to_nat i) else Raise IndexError.

(** [np.expand_dims(x, axis=0)] on a one-dimensional array. *)
Definition np_expand_dims0 (x : list Q) : list (list Q) := [x].

(** [LibriSpeechDataLoader.__len__] *)
Definition __len__ (self : LibriSpeechDataLoader) : nat := length (_ds self).

(** [LibriSpeechDataLoader.__getitem__] *)
Definition __getitem__ (self : LibriSpeechDataLoader) (index : Z)
  : result ((nat * string) * gmap string (list (list Q))) :=
  entry ← py_list_getitem (_ds self) index;
  let label := entry.1 in
  entry ← py_list_getitem (_ds self) index;
  let inputs := {[ "inputs" := np_expand_dims0 entry.2 ]} in
  Ok (label, inputs).

(** [transform_fn] *)
Definition transform_fn {L V} (data_item : L * gmap string V) : result V :=
  let inputs := data_item.2 in
  dict_getitem inputs "inputs".

(** [for sample in loader]: the class defines no [__iter__], so Python
    calls [__getitem__] with 0, 1, 2, ... and stops at the first
    [IndexError]; any other exception is passed on.  [None] when the fuel
    runs out. *)
Fixpoint iterate_getitem {A} (getitem : Z → result A) (fuel : nat) (i : Z)
  : option (result (list A)) :=
  match fuel with
  | O => None
  | S fuel' =>
      match getitem i with
      | Ok x =>
          match iterate_getitem getitem fuel' (i + 1) with
          | Some (Ok xs) => Some (Ok (x :: xs))
          | other => other
          end
      | Raise IndexError => Some (Ok [])
      | Raise e => Some (Raise e)
      end
  end.

(** * Properties *)

(** ** The Levenshtein distance *)

Section LevenshteinFacts.

Context {A : Type} `{EqDecision A}.
Implicit Types a b c : list A.

Lemma subst_cost_range (x y : A) : 0 ≤ subst_cost x y ≤ 1.
Proof. unfold subst_cost. case_decide; lia. Qed.

Lemma subst_cost_sym (x y : A) : subst_cost x y = subst_cost y x.
Proof. unfold subst_cost. repeat case_decide; congruence. Qed.

Lemma subst_cost_refl (x : A) : subst_cost x x = 0.
Proof. unfold subst_cost. case_decide; congruence. Qed.

Lemma subst_cost_triangle (x y z : A) :
  subst_cost x z ≤ subst_cost x y + subst_cost y z.
Proof. unfold subst_cost. repeat case_decide; try lia; congruence. Qed.

Lemma lev_nil_l b : lev [] b = Z.of_nat (length b).
Proof. reflexivity. Qed.

Lemma lev_nil_r a : lev a [] = Z.of_nat (length a).
Proof. destruct a; reflexivity. Qed.

Lemma lev_cons x y a b :
  lev (x :: a) (y :: b)
  = min3 (lev a (y :: b) + 1) (lev (x :: a) b + 1) (lev a b + subst_cost x y).
Proof. reflexivity. Qed.

(** Alignments are symmetric, and they compose. *)
Lemma edit_sym a b n : edit a b n → edit b a n.
Proof.
  induction 1.
  - constructor.
  - by apply edit_insert.
  - by apply edit_delete.
  - rewrite subst_cost_sym. by apply edit_match.
Qed.

Lemma edit_all_insert b : edit [] b (Z.of_nat (length b)).
Proof.
  induction b as [|y b IH]; [constructor|].
  replace (Z.of_nat (length (y :: b))) with (Z.of_nat (length b) + 1)
    by (simpl; lia).
  by apply edit_insert.
Qed.

Lemma edit_all_delete a : edit a [] (Z.of_nat (length a)).
Proof. apply edit_sym, edit_all_insert. Qed.

Lemma edit_nonneg a b n : edit a b n → 0 ≤ n.
Proof.
  induction 1; try lia.
  pose proof (subst_cost_range x y). lia.
Qed.

Lemma edit_compose a b n :
  edit a b n → ∀ c m, edit b c m → ∃ k, edit a c k ∧ k ≤ n + m.
Proof.
  induction 1 as [|x a b n Hab IH|y a b n Hab IH|x y a b n Hab IH];
    intros c m Hbc.
  - exists m. split; [done|lia].
  - destruct (IH _ _ Hbc) as (k & Hk & Hle).
    exists (k + 1). split; [by apply edit_delete|lia].
  - remember (y :: b) as yb eqn:Heq.
    induction Hbc as [|y' b' c m Hbc _|z b' c m Hbc IHbc|y' z b' c m Hbc _];
      try discriminate.
    + injection Heq as -> ->.
      destruct (IH _ _ Hbc) as (k & Hk & Hle).
      exists k. split; [done|lia].
    + destruct (IHbc Heq) as (k & Hk & Hle).
      exists (k + 1). split; [by apply edit_insert|lia].
    + injection Heq as -> ->.
      destruct (IH _ _ Hbc) as (k & Hk & Hle).
      exists (k + 1). split; [by apply edit_insert|].
      pose proof (subst_cost_range y z). lia.
  - remember (y :: b) as yb eqn:Heq.
    induction Hbc as [|y' b' c m Hbc _|z b' c m Hbc IHbc|y' z b' c m Hbc _];
      try discriminate.
    + injection Heq as -> ->.
      destruct (IH _ _ Hbc) as (k & Hk & Hle).
      exists (k + 1). split; [by apply edit_delete|].
      pose proof (subst_cost_range x y). lia.
    + destruct (IHbc Heq) as (k & Hk & Hle).
      exists (k + 1). split; [by apply edit_insert|lia].
    + injection Heq as -> ->.
      destruct (IH _ _ Hbc) as (k & Hk & Hle).
      exists (k + subst_cost x z). split; [by apply edit_match|].
      pose proof (subst_cost_triangle x y z). lia.
Qed.

(** Appending at the end instead of the front. *)
Lemma edit_delete_last a b n x : edit a b n → edit (a ++ [x]) b (n + 1).
Proof.
  induction 1 as [|x' a b n Hab IH|y a b n Hab IH|x' y a b n Hab IH]; simpl.
  - apply (edit_delete x [] [] 0), edit_nil.
  - by apply edit_delete.
  - by apply edit_insert.
  - replace (n + subst_cost x' y + 1) with (n + 1 + subst_cost x' y) by lia.
    by apply edit_match.
Qed.

Lemma edit_insert_last a b n y : edit a b n → edit a (b ++ [y]) (n + 1).
Proof. intros. by apply edit_sym, edit_delete_last, edit_sym. Qed.

Lemma edit_match_last a b n x y :
  edit a b n → edit (a ++ [x]) (b ++ [y]) (n + subst_cost x y).
Proof.
  induction 1 as [|x' a b n Hab IH|y' a b n Hab IH|x' y' a b n Hab IH]; simpl.
  - apply (edit_match x y [] [] 0), edit_nil.
  - replace (n + 1 + subst_cost x y) with (n + subst_cost x y + 1) by lia.
    by apply edit_delete.
  - replace (n + 1 + subst_cost x y) with (n + subst_cost x y + 1) by lia.
    by apply edit_insert.
  - replace (n + subst_cost x' y' + subst_cost x y)
      with (n + subst_cost x y + subst_cost x' y') by lia.
    by apply edit_match.
Qed.

Lemma edit_reverse a b n : edit a b n → edit (reverse a) (reverse b) n.
Proof.
  induction 1; rewrite ?reverse_cons.
  - constructor.
  - by apply edit_delete_last.
  - by apply edit_insert_last.
  - by apply edit_match_last.
Qed.

(** The recursion computes the least cost of an alignment. *)
Lemma lev_edit a b : edit a b (lev a b).
Proof.
  revert b. induction a as [|x a IHa]; intros b.
  - apply edit_all_insert.
  - induction b as [|y b IHb].
    + rewrite lev_nil_r. apply edit_all_delete.
    + rewrite lev_cons. unfold min3.
      destruct (Z.min_spec (lev a (y :: b) + 1)
                  (Z.min (lev (x :: a) b + 1) (lev a b + subst_cost x y)))
        as [[_ ->]|[_ ->]].
      * apply edit_delete, IHa.
      * destruct (Z.min_spec (lev (x :: a) b + 1) (lev a b + subst_cost x y))
          as [[_ ->]|[_ ->]].
        -- by apply edit_insert.
        -- apply edit_match, IHa.
Qed.

Lemma lev_least a b n : edit a b n → lev a b ≤ n.
Proof.
  induction 1 as [|x a b n Hab IH|y a b n Hab IH|x y a b n Hab IH].
  - simpl. lia.
  - destruct b as [|y b].
    + rewrite lev_nil_r in *. simpl length. lia.
    + rewrite lev_cons. unfold min3. lia.
  - destruct a as [|x a].
    + rewrite lev_nil_l in *. simpl length. lia.
    + rewrite lev_cons. unfold min3. lia.
  - rewrite lev_cons. unfold min3. lia.
Qed.

Lemma lev_is_distance a b : is_distance a b (lev a b).
Proof. split; [apply lev_edit|apply lev_least]. Qed.

Lemma is_distance_unique a b d d' :
  is_distance a b d → is_distance a b d' → d = d'.
Proof. intros [H1 H2] [H1' H2']. apply H2 in H1'. apply H2' in H1. lia. Qed.

Lemma lev_sym a b : lev a b = lev b a.
Proof.
  apply Z.le_antisymm; apply lev_least, edit_sym, lev_edit.
Qed.

Lemma lev_reverse a b : lev (reverse a) (reverse b) = lev a b.
Proof.
  apply Z.le_antisymm.
  - apply lev_least, edit_reverse, lev_edit.
  - rewrite <-(reverse_involutive a), <-(reverse_involutive b) at 1.
    apply lev_least, edit_reverse, lev_edit.
Qed.

Lemma lev_triangle a b c : lev a c ≤ lev a b + lev b c.
Proof.
  destruct (edit_compose a b _ (lev_edit a b) c _ (lev_edit b c))
    as (k & Hk & Hle).
  apply lev_least in Hk. lia.
Qed.

Lemma lev_nonneg a b : 0 ≤ lev a b.
Proof. apply (edit_nonneg a b), lev_edit. Qed.

Lemma lev_refl a : lev a a = 0.
Proof.
  apply Z.le_antisymm; [|apply lev_nonneg].
  apply lev_least. induction a as [|x a IH]; [constructor|].
  replace 0 with (0 + subst_cost x x) by (rewrite subst_cost_refl; lia).
  by apply edit_match.
Qed.

Lemma edit_length_diff a b n :
  edit a b n → Z.abs (Z.of_nat (length a) - Z.of_nat (length b)) ≤ n.
Proof.
  induction 1 as [|x a b n Hab IH|y a b n Hab IH|x y a b n Hab IH];
    simpl length; try lia.
  pose proof (subst_cost_range x y). lia.
Qed.

Lemma edit_within_longer a : ∀ b,
  ∃ n, edit a b n ∧ n ≤ Z.of_nat (length a `max` length b).
Proof.
  induction a as [|x a IH]; intros b.
  - exists (Z.of_nat (length b)). split; [apply edit_all_insert|simpl; lia].
  - destruct b as [|y b].
    + exists (Z.of_nat (length (x :: a))).
      split; [apply edit_all_delete|simpl; lia].
    + destruct (IH b) as (n & Hn & Hle).
      exists (n + subst_cost x y). split; [by apply edit_match|].
      pose proof (subst_cost_range x y). simpl length. lia.
Qed.

Lemma lev_bounds a b :
  Z.abs (Z.of_nat (length a) - Z.of_nat (length b)) ≤ lev a b
  ≤ Z.of_nat (length a `max` length b).
Proof.
  split.
  - apply edit_length_diff, lev_edit.
  - destruct (edit_within_longer a b) as (n & Hn & Hle).
    apply lev_least in Hn. lia.
Qed.

Lemma edit_zero a b : edit a b 0 → a = b.
Proof.
  intros Hab. remember 0 as n eqn:Hn. revert Hn.
  induction Hab as [|x a b n Hab IH|y a b n Hab IH|x y a b n Hab IH];
    intros Hn; [done| | |].
  - apply edit_nonneg in Hab. lia.
  - apply edit_nonneg in Hab. lia.
  - pose proof (edit_nonneg _ _ _ Hab). pose proof (subst_cost_range x y).
    assert (n = 0) as -> by lia. rewrite (IH eq_refl).
    unfold subst_cost in Hn. case_decide; [congruence|lia].
Qed.

Lemma lev_zero a b : lev a b = 0 ↔ a = b.
Proof.
  split; [|intros ->; apply lev_refl].
  intros Hz. apply edit_zero. rewrite <-Hz. apply lev_edit.
Qed.

End LevenshteinFacts.

Lemma for_in_seq {S} (P : nat → S → Prop) (body : nat → S → result S) len :
  ∀ lo s,
    P lo s →
    (∀ k s, (lo ≤ k < lo + len)%nat → P k s → ∃ s', body k s = Ok s' ∧ P (Datatypes.S k) s') →
    ∃ s', for_in (seq lo len) body s = Ok s' ∧ P (lo + len)%nat s'.
Proof.
  induction len as [|len IH]; intros lo s HP Hbody; simpl.
  - exists s. by rewrite Nat.add_0_r.
  - destruct (Hbody lo s) as (s1 & -> & HP1); [lia|done|]. simpl.
    destruct (IH (Datatypes.S lo) s1) as (s2 & Hs2 & HP2); [done| |].
    + intros k s' Hk. apply Hbody. lia.
    + exists s2. split; [done|]. by replace (lo + Datatypes.S len)%nat with (Datatypes.S lo + len)%nat by lia.
Qed.

Lemma get_cell d i j v : cell d i j = Some v → Table.get d i j = Ok v.
Proof.
  unfold cell, Table.get. destruct (d !! i) as [row|]; [|done]. simpl.
  by intros ->.
Qed.

Lemma set_cell d r c i j v :
  has_shape d r c → (i < r)%nat → (j < c)%nat →
  ∃ d', Table.set d i j v = Ok d'
        ∧ has_shape d' r c
        ∧ cell d' i j = Some v
        ∧ ∀ i' j', (i', j') ≠ (i, j) → cell d' i' j' = cell d i' j'.
Proof.
  intros [Hlen Hrows] Hi Hj. unfold Table.set.
  destruct (lookup_lt_is_Some_2 d i) as [row Hrow]; [lia|]. rewrite Hrow.
  assert (length row = c) as Hc.
  { rewrite Forall_lookup in Hrows. by apply (Hrows i). }
  rewrite decide_True by lia. eexists. split; [done|]. repeat split.
  - by rewrite length_insert.
  - apply Forall_insert; [done|]. by rewrite length_insert.
  - unfold cell. rewrite list_lookup_insert_eq by lia. simpl.
    apply list_lookup_insert_eq. lia.
  - intros i' j' Hne. unfold cell.
    destruct (decide (i' = i)) as [->|Hi'].
    + rewrite list_lookup_insert_eq by lia. rewrite Hrow. simpl.
      apply list_lookup_insert_ne. congruence.
    + by rewrite list_lookup_insert_ne.
Qed.

Section TableFacts.
Context {A : Type} `{EqDecision A}.
Implicit Types a b : list A.

Lemma prefix_dist_0_l a b j :
  (j ≤ length b)%nat → prefix_dist a b 0 j = Z.of_nat j.
Proof.
  intros Hj. unfold prefix_dist. rewrite take_0, reverse_nil, lev_nil_l.
  rewrite length_reverse, length_take. lia.
Qed.

Lemma prefix_dist_0_r a b i :
  (i ≤ length a)%nat → prefix_dist a b i 0 = Z.of_nat i.
Proof.
  intros Hi. unfold prefix_dist. rewrite take_0, reverse_nil, lev_nil_r.
  rewrite length_reverse, length_take. lia.
Qed.

Lemma prefix_dist_S a b i j s t :
  a !! i = Some s → b !! j = Some t →
  prefix_dist a b (S i) (S j)
  = min3 (prefix_dist a b i (S j) + 1) (prefix_dist a b (S i) j + 1)
      (prefix_dist a b i j + subst_cost s t).
Proof.
  intros Hs Ht. unfold prefix_dist.
  rewrite (take_S_r a i s Hs), (take_S_r b j t Ht), !reverse_snoc.
  apply lev_cons.
Qed.

Lemma prefix_dist_full a b :
  prefix_dist a b (length a) (length b) = lev a b.
Proof.
  unfold prefix_dist. rewrite !firstn_all. apply lev_reverse.
Qed.

(** The table after the two slice assignments. *)
Lemma filled_init a b :
  filled a b 1 1
    (Table.set_row0
       (Table.set_col0 (Table.zeros (length a + 1) (length b + 1))
          (Table.arange 0 (length a + 1)))
       (Table.arange 0 (length b + 1))).
Proof.
  set (n := length a). set (m := length b).
  unfold Table.set_row0, Table.set_col0, Table.zeros, Table.arange, range.
  rewrite Nat.sub_0_r.
  split; [split|].
  - rewrite length_insert, length_zip_with, length_replicate, length_fmap,
      length_seq. lia.
  - apply Forall_insert.
    + apply Forall_lookup. intros i row Hrow.
      apply lookup_zip_with_Some in Hrow as (r & v & -> & Hr & Hv).
      apply lookup_replicate in Hr as [-> _].
      rewrite length_insert, length_replicate. lia.
    + rewrite length_fmap, length_seq. lia.
  - intros i' j' Hi' Hj' Hcase. unfold cell.
    destruct (decide (i' = 0)%nat) as [->|Hnz].
    + rewrite list_lookup_insert_eq; last first.
      { rewrite length_zip_with, length_replicate, length_fmap, length_seq. lia. }
      simpl. rewrite list_lookup_fmap, lookup_seq_lt by lia. simpl.
      by rewrite prefix_dist_0_l.
    + assert (j' = 0)%nat as -> by lia.
      rewrite list_lookup_insert_ne by done.
      rewrite lookup_zip_with, lookup_replicate_2 by lia. simpl.
      rewrite list_lookup_fmap, lookup_seq_lt by lia. simpl.
      rewrite list_lookup_insert_eq by (rewrite length_replicate; lia).
      by rewrite prefix_dist_0_r.
Qed.

Lemma fill_cell_filled a b i j d :
  (1 ≤ i ≤ length a)%nat → (1 ≤ j ≤ length b)%nat →
  filled a b i j d →
  ∃ d', fill_cell a b i j d = Ok d' ∧ filled a b i (S j) d'.
Proof.
  intros Hi Hj [Hshape Hcells]. unfold fill_cell.
  destruct (lookup_lt_is_Some_2 a (i - 1)) as [s Hs]; [lia|].
  destruct (lookup_lt_is_Some_2 b (j - 1)) as [t Ht]; [lia|].
  unfold list_getitem. rewrite Hs, Ht. simpl.
  rewrite (get_cell d (i - 1) j _ (Hcells (i - 1)%nat j ltac:(lia) ltac:(lia) ltac:(lia))).
  simpl.
  rewrite (get_cell d i (j - 1) _ (Hcells i (j - 1)%nat ltac:(lia) ltac:(lia) ltac:(lia))).
  simpl.
  rewrite (get_cell d (i - 1) (j - 1) _
             (Hcells (i - 1)%nat (j - 1)%nat ltac:(lia) ltac:(lia) ltac:(lia))).
  simpl.
  destruct (set_cell d _ _ i j
              (min3 (prefix_dist a b (i - 1) j + 1)
                 (prefix_dist a b i (j - 1) + 1)
                 (prefix_dist a b (i - 1) (j - 1) + subst_cost s t))
              Hshape ltac:(lia) ltac:(lia)) as (d' & Hset & Hshape' & Hnew & Hold).
  exists d'. split; [done|]. split; [done|].
  intros i' j' Hi' Hj' Hcase.
  destruct (decide ((i', j') = (i, j))) as [[= -> ->]|Hne].
  - rewrite Hnew. f_equal.
    replace i with (S (i - 1)) at 4 by lia.
    replace j with (S (j - 1)) at 4 by lia.
    rewrite (prefix_dist_S a b _ _ s t Hs Ht).
    by replace (S (i - 1)) with i by lia; replace (S (j - 1)) with j by lia.
  - rewrite Hold by done. apply Hcells; [done..|].
    assert (i' ≠ i ∨ j' ≠ j) by (destruct (decide (i' = i)); [right; congruence|by left]).
    lia.
Qed.

Lemma fill_row_filled a b i d :
  (1 ≤ i ≤ length a)%nat →
  filled a b i 1 d →
  ∃ d', fill_row a b (length b) i d = Ok d' ∧ filled a b (S i) 1 d'.
Proof.
  intros Hi Hd. unfold fill_row, range.
  replace (length b + 1 - 1)%nat with (length b) by lia.
  destruct (for_in_seq (filled a b i) (fill_cell a b i) (length b) 1 d Hd)
    as (d' & Hrun & [Hshape Hcells]).
  { intros k s Hk. apply fill_cell_filled; [done|lia]. }
  exists d'. split; [done|]. split; [done|].
  intros i' j' Hi' Hj' Hcase. apply Hcells; [done..|]. lia.
Qed.

(** The routine returns the Levenshtein distance of its arguments. *)
Lemma editdistance_lev a b : _editdistance_eval a b = Ok (lev a b).
Proof.
  unfold _editdistance_eval. cbv zeta.
  destruct (for_in_seq (λ i, filled a b i 1) (fill_row a b (length b))
              (length a) 1 _ (filled_init a b)) as (d & Hrun & [_ Hcells]).
  { intros k s Hk. apply fill_row_filled. lia. }
  unfold range. replace (length a + 1 - 1)%nat with (length a) by lia.
  rewrite Hrun. simpl.
  rewrite <-prefix_dist_full. apply get_cell, Hcells; lia.
Qed.
End TableFacts.

(** ** Strings *)

Lemma str_append_nil_r (s : string) : s +:+ "" = s.
Proof.
  induction s as [|c s IH]; [done|].
  change (String c (s +:+ "") = String c s). by rewrite IH.
Qed.

Lemma str_append_assoc (s t u : string) : (s +:+ t) +:+ u = s +:+ (t +:+ u).
Proof.
  induction s as [|c s IH]; [done|].
  change (String c ((s +:+ t) +:+ u) = String c (s +:+ (t +:+ u))).
  by rewrite IH.
Qed.

Lemma split_sep_scan_cons sep s cur :
  ∃ x l, split_sep_scan sep s cur = x :: l.
Proof.
  revert cur. induction s as [|c s IH]; intros cur; simpl; [by eauto|].
  case_decide; eauto.
Qed.

Lemma str_join_cons sep x y l :
  str_join sep (x :: y :: l) = x +:+ sep +:+ str_join sep (y :: l).
Proof. reflexivity. Qed.

(** Splitting at a character and joining with it gives the string back. *)
Lemma join_split_sep_scan sep s cur :
  str_join (String sep "") (split_sep_scan sep s cur) = cur +:+ s.
Proof.
  revert cur. induction s as [|c s IH]; intros cur; simpl.
  - by rewrite str_append_nil_r.
  - case_decide as Hc.
    + subst c. destruct (split_sep_scan_cons sep s "") as (x & l & Hx).
      specialize (IH ""). rewrite Hx in *. rewrite str_join_cons, IH.
      reflexivity.
    + rewrite IH, str_append_assoc. reflexivity.
Qed.

Lemma join_split_sep sep s : str_join (String sep "") (str_split_sep sep s) = s.
Proof. apply join_split_sep_scan. Qed.

Lemma str_lower_upto_case s t : eq_upto_case s t → str_lower s = str_lower t.
Proof.
  revert t. induction s as [|c s IH]; intros [|d t]; simpl; try done.
  intros [Hc Hs]. unfold char_eq_upto_case in Hc. by rewrite Hc, (IH t).
Qed.

Lemma fmap_lower_upto_case (l k : list string) :
  Forall2 eq_upto_case l k → str_lower <$> l = str_lower <$> k.
Proof.
  induction 1 as [|s t l k Hst _ IH]; [done|].
  by rewrite !fmap_cons, (str_lower_upto_case s t), IH.
Qed.

(** ** The error monad on lists *)

Lemma mapM_ok {A B} (f : A → result B) l k :
  mapM f l = Ok k ↔ Forall2 (λ x y, f x = Ok y) l k.
Proof.
  split.
  - revert k. induction l as [|x l IH]; intros k; simpl.
    + intros [= <-]. constructor.
    + destruct (f x) as [y|e] eqn:Hx; simpl; [|done].
      destruct (mapM f l) as [k'|e]; simpl; [|done].
      intros [= <-]. constructor; [done|]. by apply IH.
  - induction 1 as [|x y l k Hx _ IH]; simpl; [done|].
    by rewrite Hx; simpl; rewrite IH.
Qed.

Lemma mapM_ok_length {A B} (f : A → result B) l k :
  mapM f l = Ok k → length k = length l.
Proof. intros Hk. apply mapM_ok in Hk. symmetry. by eapply Forall2_length. Qed.

Lemma mapM_raise {A B} (f : A → result B) l e :
  mapM f l = Raise e → ∃ x, x ∈ l ∧ f x = Raise e.
Proof.
  induction l as [|x l IH]; simpl; [done|].
  destruct (f x) as [y|e'] eqn:Hx; simpl.
  - destruct (mapM f l) as [k'|e'']; simpl; [done|].
    intros [= ->]. destruct IH as (x' & Hin & Hx'); [done|].
    exists x'. split; [by right|done].
  - intros [= ->]. exists x. split; [by left|done].
Qed.

Lemma mapM_all_ok {A B} (f : A → result B) l :
  Forall (λ x, ∃ y, f x = Ok y) l → ∃ k, mapM f l = Ok k.
Proof.
  induction 1 as [|x l [y Hy] _ [k IH]]; simpl; [by eexists|].
  rewrite Hy; simpl. rewrite IH; simpl. by eexists.
Qed.

(** ** The decoder *)

Lemma argmax_scan_lt row : ∀ best best_i i,
  (best_i < i)%nat → (argmax_scan best best_i i row < i + length row)%nat.
Proof.
  induction row as [|x row IH]; intros best best_i i Hlt; simpl; [lia|].
  destruct (Qlt_le_dec best x).
  - specialize (IH x i (S i)). lia.
  - specialize (IH best best_i (S i)). lia.
Qed.

Lemma argmax_row_ok row :
  row ≠ [] → ∃ i, argmax_row row = Ok i ∧ (i < length row)%nat.
Proof.
  destruct row as [|x row]; [done|]. intros _. eexists. split; [done|].
  pose proof (argmax_scan_lt row x 0%nat 1%nat). simpl. lia.
Qed.

Lemma lookup_dict_enumerate {V} (l : list V) (i : nat) :
  dict_enumerate l !! i = l !! i.
Proof.
  unfold dict_enumerate, enumerate. destruct (l !! i) as [x|] eqn:Hx.
  - apply elem_of_list_to_map_1.
    + rewrite fst_zip by (rewrite length_seq; lia). apply NoDup_seq.
    + apply list_elem_of_lookup. exists i. apply lookup_zip_Some.
      split; [|done]. apply lookup_seq. split; [done|].
      by apply lookup_lt_Some in Hx.
  - apply not_elem_of_list_to_map_1.
    rewrite fst_zip by (rewrite length_seq; lia).
    rewrite elem_of_seq. apply lookup_ge_None in Hx. lia.
Qed.

Lemma decode_logits_kind a e :
  decode_logits a = Raise e → kind_of e = Some InvalidInput.
Proof.
  unfold decode_logits, np_argmax.
  case_decide; simpl; [by intros [= <-]|].
  destruct (mapM argmax_row (data a)) as [ids|e'] eqn:Hids; simpl.
  - destruct (np_squeeze ids) as [x|xs]; simpl; [by intros [= <-]|].
    destruct (mapM _ xs) as [toks|e'] eqn:Htoks; simpl; [done|].
    intros [= ->]. apply mapM_raise in Htoks as (x & _ & Hx).
    unfold dict_getitem in Hx. destruct (_ !! x); [done|]. by injection Hx as <-.
  - intros [= ->]. apply mapM_raise in Hids as (row & _ & Hrow).
    destruct row; [|done]. by injection Hrow as <-.
Qed.

Lemma decodable_decodes a : decodable a → ∃ s, decode_logits a = Ok s.
Proof.
  intros [[Hrect Hwidth] Hsteps]. unfold decode_logits, np_argmax.
  rewrite decide_False by (rewrite Hwidth; done).
  assert (∃ ids, mapM argmax_row (data a) = Ok ids
                 ∧ Forall (λ i, i < length alphabet)%nat ids) as (ids & Hids & Hlt).
  { unfold rectangular in Hrect. rewrite Hwidth in Hrect.
    induction Hrect as [|row rows Hrow _ (ids & IH & Hlt)]; [by exists []|].
    destruct (argmax_row_ok row) as (i & Hi & Hilt).
    { intros ->. done. }
    exists (i :: ids). split; [|constructor; [lia|done]].
    simpl. rewrite Hi; simpl. by rewrite IH. }
  rewrite Hids; simpl.
  assert (np_squeeze ids = Vector ids) as ->.
  { apply mapM_ok_length in Hids. unfold timesteps in Hsteps.
    by destruct ids as [|? [|? ?]]. }
  simpl.
  destruct (mapM_all_ok (dict_getitem (dict_enumerate alphabet)) ids)
    as [toks ->].
  { eapply Forall_impl; [exact Hlt|]. intros i Hi. unfold dict_getitem.
    rewrite lookup_dict_enumerate.
    destruct (lookup_lt_is_Some_2 alphabet i Hi) as [t ->]. by eexists. }
  simpl. by eexists.
Qed.

(** ** The accumulator *)

Lemma truediv_np d w : truediv (NpInt64 d) w = Ok (np_ratio d w).
Proof. unfold truediv, np_ratio. by repeat case_decide. Qed.

Lemma truediv_nonzero x w : w ≠ 0 → truediv x w = Ok (quotient (int_val x) w).
Proof. intros Hw. unfold truediv. destruct x; simpl; by rewrite decide_False. Qed.

(** One sample: the value returned and the accumulator left. *)
Lemma get_metric_per_sample_run annotation prediction self :
  _get_metric_per_sample annotation prediction self
  = (Ok (if decide (word_count annotation ≠ 0)
         then Float (np_ratio (lev (str_split annotation) (str_split prediction))
                       (word_count annotation))
         else Int (PyInt 0)),
     sample_step self (annotation, prediction)).
Proof.
  unfold _get_metric_per_sample, m_bind, m_lift, m_get, m_modify, m_ret.
  rewrite editdistance_lev, truediv_np. fold (word_count annotation).
  by case_decide.
Qed.

Lemma m_for_fmap {I J} (f : I → J) (xs : list I) (body : J → method unit) self :
  m_for (f <$> xs) body self = m_for xs (body ∘ f) self.
Proof.
  revert self. induction xs as [|x xs IH]; intros self; [done|].
  rewrite fmap_cons. simpl. unfold m_bind.
  destruct (body (f x) self) as [[[]|e] self']; [apply IH|done].
Qed.

Lemma m_for_samples (ds ts : list string) : ∀ self,
  length ds = length ts →
  m_for (seq 0 (length ds))
    (λ i, annotation ⇐ m_lift (list_getitem ds i) ;;
          prediction ⇐ m_lift (list_getitem ts i) ;;
          _get_metric_per_sample annotation prediction ;;
          m_ret tt)%method self
  = (Ok tt, foldl sample_step self (zip ds ts)).
Proof.
  revert ts. induction ds as [|d ds IH]; intros [|t ts] self Hlen;
    try discriminate; [done|].
  injection Hlen as Hlen.
  change (seq 0 (length (d :: ds))) with (0%nat :: seq 1 (length ds)).
  rewrite <-fmap_S_seq.
  cbn [m_for]. unfold m_bind at 1.
  unfold m_bind at 1. unfold m_lift at 1. cbn [list_getitem lookup list_lookup].
  unfold m_bind at 1. unfold m_lift at 1.
  unfold m_bind at 1. rewrite get_metric_per_sample_run. unfold m_ret at 1.
  rewrite m_for_fmap. apply (IH ts _ Hlen).
Qed.

(** What a call of [update] does, case by case. *)
Lemma update_run output target self :
  update output target self
  = match mapM decode_logits output with
    | Raise e => (Raise e, self)
    | Ok decoded =>
        if decide (length output = length target)
        then (Ok tt, foldl sample_step self (zip decoded (str_lower <$> target)))
        else (Raise AssertionError, self)
    end.
Proof.
  unfold update. unfold m_bind at 1. unfold m_lift at 1.
  destruct (mapM decode_logits output) as [decoded|e] eqn:Hdec; [|done].
  unfold m_bind at 1. unfold m_lift at 1. rewrite length_fmap.
  case_decide as Hlen.
  - rewrite bool_decide_eq_true_2 by done. simpl py_assert. cbv iota.
    apply mapM_ok_length in Hdec.
    unfold range. rewrite Nat.sub_0_r, <-Hdec.
    apply m_for_samples. rewrite length_fmap. congruence.
  - by rewrite bool_decide_eq_false_2 by done.
Qed.

Lemma sample_step_name self pair : _name (sample_step self pair) = _name self.
Proof. done. Qed.

Lemma foldl_sample_step_name pairs : ∀ self,
  _name (foldl sample_step self pairs) = _name self.
Proof. induction pairs as [|p pairs IH]; intros self; [done|]. simpl. by rewrite IH. Qed.

Lemma foldl_sample_step_vocab pairs : ∀ self,
  _decoding_vocab (foldl sample_step self pairs) = _decoding_vocab self.
Proof. induction pairs as [|p pairs IH]; intros self; [done|]. simpl. by rewrite IH. Qed.

Lemma update_name output target self :
  _name (update output target self).2 = _name self.
Proof.
  rewrite update_run. destruct (mapM decode_logits output); [|done].
  case_decide; [|done]. apply foldl_sample_step_name.
Qed.

Lemma reachable_name self : reachable self → _name self = "WER".
Proof.
  induction 1 as [|self output target _ IH|self _ IH]; [done| |done].
  by rewrite update_name.
Qed.

Lemma word_count_nonneg s : 0 ≤ word_count s.
Proof. unfold word_count. lia. Qed.

Lemma foldl_sample_step_words pairs : ∀ self,
  _sum_words self ≤ _sum_words (foldl sample_step self pairs).
Proof.
  induction pairs as [|p pairs IH]; intros self; [done|]. simpl.
  etrans; [|apply IH]. simpl. pose proof (word_count_nonneg p.1). lia.
Qed.

Lemma reachable_words_nonneg self : reachable self → 0 ≤ _sum_words self.
Proof.
  induction 1 as [|self output target _ IH|self _ IH]; [done| |done].
  rewrite update_run. destruct (mapM decode_logits output); [|done].
  case_decide; [|done]. simpl. etrans; [exact IH|apply foldl_sample_step_words].
Qed.

(** [avg_value] in any state: the guard keeps the division from raising. *)
Lemma avg_value_run self :
  avg_value self
  = (Ok {[ _name self := if decide (_sum_words self = 0) then Int (PyInt 0)
                         else Float (quotient (int_val (_sum_score self))
                                       (_sum_words self)) ]},
     self).
Proof.
  unfold avg_value, m_bind, m_get, m_lift, m_ret.
  destruct (decide (_sum_words self = 0)) as [Hw|Hw].
  - by rewrite decide_False by (intros Hne; by apply Hne).
  - rewrite decide_True by done. by rewrite truediv_nonzero.
Qed.

(** ** Properties of the specification *)

(** C1.  The word count [update] accumulates is that of the decoded
    prediction, not of the reference: the prediction decoding to ["e"]
    scored against the reference ["e t"] (two words) adds one word, and
    the cost 1. *)
Theorem update_counts_prediction_words :
  let run := update [logits_of [5; 5]%nat] ["e t"] __init__ in
  run.1 = Ok tt
  ∧ decode_logits (logits_of [5; 5]%nat) = Ok "e"
  ∧ word_count "e t" = 2
  ∧ _sum_words run.2 = _sum_words __init__ + 1
  ∧ _sum_score run.2 = NpInt64 1.
Proof. by vm_compute. Qed.

(** C2.  In every reachable state [avg_value] returns, without raising and
    without changing the state, the dict that maps ["WER"] to the quotient
    of the cumulative cost by the cumulative word count, and to the integer
    0 when the word count is 0. *)
Theorem avg_value_reachable self :
  reachable self →
  avg_value self
  = (Ok {[ "WER" := if decide (_sum_words self = 0) then Int (PyInt 0)
                    else Float (quotient (int_val (_sum_score self))
                                  (_sum_words self)) ]},
     self).
Proof.
  intros Hreach. by rewrite avg_value_run, (reachable_name self Hreach).
Qed.

Lemma avg_value_reachable_witness :
  reachable example_state
  ∧ avg_value example_state
    = (Ok {[ "WER" := if decide (_sum_words example_state = 0) then Int (PyInt 0)
                      else Float (quotient (int_val (_sum_score example_state))
                                    (_sum_words example_state)) ]},
       example_state).
Proof.
  assert (reachable example_state) as Hreach
    by apply reachable_update, reachable_init.
  split; [exact Hreach|]. exact (avg_value_reachable example_state Hreach).
Defined.

(** C3, as the code has it.  The decoder runs before the length check: a
    prediction it rejects makes [update] raise the decoder's exception, an
    invalid input, whatever the lengths.  When the decoder accepts every
    prediction, [update] raises the size mismatch if the lengths differ and
    completes if they are equal.  No other failure exists, and matrices of
    the documented shape with a number of timesteps other than one are
    accepted. *)
Theorem update_failure_modes self output target :
  (Forall (λ a, ∃ s, decode_logits a = Ok s) output →
     if decide (length output = length target)
     then (update output target self).1 = Ok tt
     else (update output target self).1 = Raise AssertionError
          ∧ kind_of AssertionError = Some SizeMismatch)
  ∧ (∀ a e, a ∈ output → decode_logits a = Raise e →
       ∃ e', (update output target self).1 = Raise e'
             ∧ kind_of e' = Some InvalidInput)
  ∧ (∀ e, (update output target self).1 = Raise e →
       (e = AssertionError ∧ length output ≠ length target)
       ∨ (kind_of e = Some InvalidInput
          ∧ ∃ a, a ∈ output ∧ decode_logits a = Raise e))
  ∧ (Forall decodable output →
       Forall (λ a, ∃ s, decode_logits a = Ok s) output).
Proof.
  rewrite update_run. repeat split.
  - intros Hacc. destruct (mapM_all_ok decode_logits output Hacc) as [k ->].
    by case_decide.
  - intros a e Hin Ha.
    destruct (mapM decode_logits output) as [k|e'] eqn:Hdec.
    + apply mapM_ok in Hdec.
      apply list_elem_of_lookup in Hin as [i Hi].
      destruct (Forall2_lookup_l _ _ _ _ _ Hdec Hi) as (s & _ & Hs). congruence.
    + exists e'. split; [done|].
      apply mapM_raise in Hdec as (a' & _ & Ha'). by eapply decode_logits_kind.
  - intros e. destruct (mapM decode_logits output) as [k|e'] eqn:Hdec.
    + case_decide; [done|]. intros [= <-]. by left.
    + intros [= <-]. right.
      apply mapM_raise in Hdec as (a & Hin & Ha).
      split; [by eapply decode_logits_kind|by exists a].
  - intros Hdec. eapply Forall_impl; [exact Hdec|]. apply decodable_decodes.
Qed.

Lemma logits_of_decodable ids :
  length ids ≠ 1%nat → decodable (logits_of ids).
Proof.
  intros Hlen. repeat split.
  - unfold rectangular, logits_of. cbn [data shape1].
    apply Forall_fmap, Forall_true. intros i. unfold one_hot, compose.
    by rewrite length_fmap, length_seq.
  - unfold timesteps, logits_of. cbn [data]. by rewrite length_fmap.
Qed.

Lemma update_failure_modes_witness :
  Forall decodable example_output
  ∧ (update example_output example_target __init__).1 = Ok tt
  ∧ (update example_output ["e"] __init__).1 = Raise AssertionError
  ∧ (∃ e', (update [wide_logits] ["e"] __init__).1 = Raise e'
           ∧ kind_of e' = Some InvalidInput).
Proof.
  assert (Forall decodable example_output) as Hdec.
  { repeat constructor; by apply logits_of_decodable. }
  split; [exact Hdec|].
  destruct (update_failure_modes __init__ example_output example_target)
    as (Hok & _ & _ & Hacc).
  destruct (update_failure_modes __init__ example_output ["e"])
    as (Hmis & _ & _ & _).
  destruct (update_failure_modes __init__ [wide_logits] ["e"])
    as (_ & Hbad & _ & _).
  split; [exact (Hok (Hacc Hdec))|].
  split; [exact (proj1 (Hmis (Hacc Hdec)))|].
  apply (Hbad wide_logits KeyError); [by left|by vm_compute].
Defined.

(** C3 as stated fails: with one prediction the decoder rejects and no
    target, the lengths differ and [update] raises the decoder's
    [KeyError], not the size mismatch. *)
Lemma update_mismatch_raises_decoder_error :
  ¬ (length [wide_logits] ≠ length ([] : list string) →
     ∃ e, (update [wide_logits] [] __init__).1 = Raise e
          ∧ kind_of e = Some SizeMismatch).
Proof.
  intros Hclaim. destruct Hclaim as (e & He & Hkind); [done|].
  assert ((update [wide_logits] [] __init__).1 = Raise KeyError) as Hrun
    by by vm_compute.
  rewrite Hrun in He. injection He as <-. discriminate Hkind.
Qed.

(** C4.  Two delimiters separated by a padding symbol decode to two
    spaces: the decoder returns ["e  t"] where the specified pipeline,
    which collapses runs of spaces, gives ["e t"]. *)
Theorem decode_logits_keeps_double_space :
  decodable (logits_of [5; 4; 0; 4; 6]%nat)
  ∧ decode_logits (logits_of [5; 4; 0; 4; 6]%nat) = Ok "e  t"
  ∧ decode_spec (logits_of [5; 4; 0; 4; 6]%nat) = Some "e t".
Proof.
  split; [by apply logits_of_decodable|]. by vm_compute.
Qed.

(** C5.  A padding-only prediction scored against the empty reference (no
    words on either side): [update] completes, and the current value it
    records is numpy's NaN from the unguarded division, which [value] then
    reports; the guarded ratio [_get_metric_per_sample] returns is 0. *)
Theorem update_empty_target_records_nan :
  let run := update [logits_of [0; 0]%nat] [""] __init__ in
  run.1 = Ok tt
  ∧ word_count "" = 0
  ∧ _cur_score run.2 = Float NaN
  ∧ (value run.2).1 = Ok {[ "WER" := Float NaN ]}
  ∧ (_get_metric_per_sample "" "" __init__).1 = Ok (Int (PyInt 0)).
Proof. by vm_compute. Qed.

(** C6.  [reset] completes, sets both counters to 0 and keeps the current
    value: in a reachable state, [avg_value] then returns [{"WER": 0}] and
    [value] still returns what it returned before. *)
Theorem reset_zeroes_counters_keeps_value self :
  reachable self →
  (reset self).1 = Ok tt
  ∧ _sum_score (reset self).2 = PyInt 0
  ∧ _sum_words (reset self).2 = 0
  ∧ _cur_score (reset self).2 = _cur_score self
  ∧ (avg_value (reset self).2).1 = Ok {[ "WER" := Int (PyInt 0) ]}
  ∧ (value (reset self).2).1 = (value self).1
  ∧ (value (reset self).2).1 = Ok {[ "WER" := _cur_score self ]}.
Proof.
  intros Hreach. repeat split.
  - rewrite avg_value_run. cbn [fst]. f_equal.
    change (_name (reset self).2) with (_name self).
    by rewrite (reachable_name self Hreach).
  - unfold value, m_bind, m_get, m_ret. simpl.
    by rewrite (reachable_name self Hreach).
Qed.

Lemma reset_zeroes_counters_keeps_value_witness :
  reachable example_state
  ∧ (avg_value (reset example_state).2).1 = Ok {[ "WER" := Int (PyInt 0) ]}
  ∧ (value (reset example_state).2).1 = Ok {[ "WER" := Float (Finite 0) ]}.
Proof.
  assert (reachable example_state) as Hreach
    by apply reachable_update, reachable_init.
  split; [exact Hreach|].
  destruct (reset_zeroes_counters_keeps_value example_state Hreach)
    as (_ & _ & _ & _ & Havg & _ & Hval).
  split; [exact Havg|]. rewrite Hval. by vm_compute.
Defined.

(** C7.  The edit distance does not depend on the order of its two
    arguments. *)
Theorem editdistance_symmetric {A} `{EqDecision A} (a b : list A) :
  _editdistance_eval a b = _editdistance_eval b a.
Proof. by rewrite !editdistance_lev, lev_sym. Qed.

(** C8.  The three distances are returned and satisfy the triangle
    inequality. *)
Theorem editdistance_triangle {A} `{EqDecision A} (a b c : list A) :
  ∃ dac dab dbc,
    _editdistance_eval a c = Ok dac
    ∧ _editdistance_eval a b = Ok dab
    ∧ _editdistance_eval b c = Ok dbc
    ∧ dac ≤ dab + dbc.
Proof.
  exists (lev a c), (lev a b), (lev b c).
  rewrite !editdistance_lev. repeat split. apply lev_triangle.
Qed.

(** C9.  When [update] raises the size mismatch, the two lengths differ
    and the accumulator is exactly as it was before the call. *)
Theorem update_size_mismatch_atomic self output target :
  (update output target self).1 = Raise AssertionError →
  length output ≠ length target ∧ (update output target self).2 = self.
Proof.
  rewrite update_run.
  destruct (mapM decode_logits output) as [k|e] eqn:Hdec.
  - by case_decide.
  - intros [= ->]. apply mapM_raise in Hdec as (a & _ & Ha).
    by apply decode_logits_kind in Ha.
Qed.

Lemma update_size_mismatch_atomic_witness :
  (update example_output ["e"] example_state).1 = Raise AssertionError
  ∧ length example_output ≠ length ["e"]
  ∧ (update example_output ["e"] example_state).2 = example_state.
Proof.
  assert ((update example_output ["e"] example_state).1 = Raise AssertionError)
    as Hrun by by vm_compute.
  split; [exact Hrun|].
  exact (update_size_mismatch_atomic example_state example_output ["e"] Hrun).
Defined.

(** C10.  Target lists that differ in letter case only lead [update] to
    the same outcome and the same accumulator. *)
Theorem update_case_insensitive self output (target1 target2 : list string) :
  Forall2 eq_upto_case target1 target2 →
  update output target1 self = update output target2 self.
Proof.
  intros Hcase. rewrite !update_run.
  rewrite (fmap_lower_upto_case _ _ Hcase), (Forall2_length _ _ _ Hcase).
  done.
Qed.

Lemma update_case_insensitive_witness :
  Forall2 eq_upto_case ["THE Cat"; "sat"] ["the cAT"; "SAT"]
  ∧ update example_output ["THE Cat"; "sat"] __init__
    = update example_output ["the cAT"; "SAT"] __init__.
Proof.
  assert (Forall2 eq_upto_case ["THE Cat"; "sat"] ["the cAT"; "SAT"]) as Hcase.
  { repeat constructor. }
  split; [exact Hcase|].
  exact (update_case_insensitive __init__ example_output _ _ Hcase).
Defined.

(** ** Further properties of the edit distance *)

(** The routine returns, on all inputs, the least cost of an alignment of
    its two arguments. *)
Theorem editdistance_least_cost {A} `{EqDecision A} (a b : list A) :
  ∃ d, _editdistance_eval a b = Ok d ∧ is_distance a b d.
Proof. exists (lev a b). split; [apply editdistance_lev|apply lev_is_distance]. Qed.

(** The distance is 0 exactly for equal lists. *)
Theorem editdistance_zero_iff_equal {A} `{EqDecision A} (a b : list A) :
  _editdistance_eval a b = Ok 0 ↔ a = b.
Proof.
  rewrite editdistance_lev. split.
  - intros [= Hz]. by apply lev_zero.
  - intros Hab. f_equal. by apply lev_zero.
Qed.

Lemma editdistance_zero_iff_equal_witness :
  _editdistance_eval ["the"; "cat"] ["the"; "cat"] = Ok 0
  ∧ ["the"; "cat"] = ["the"; "cat"].
Proof.
  pose proof (editdistance_zero_iff_equal ["the"; "cat"] ["the"; "cat"]) as [H1 H2].
  split; [exact (H2 eq_refl)|exact (H1 (H2 eq_refl))].
Defined.

(** The distance lies between the difference of the two lengths and the
    larger of them. *)
Theorem editdistance_bounds {A} `{EqDecision A} (a b : list A) :
  ∃ d, _editdistance_eval a b = Ok d
       ∧ Z.abs (Z.of_nat (length a) - Z.of_nat (length b)) ≤ d
       ∧ d ≤ Z.of_nat (length a `max` length b).
Proof.
  exists (lev a b). split; [apply editdistance_lev|apply lev_bounds].
Qed.

(** Against the empty list the distance is the length of the other list. *)
Theorem editdistance_empty {A} `{EqDecision A} (a : list A) :
  _editdistance_eval a [] = Ok (Z.of_nat (length a))
  ∧ _editdistance_eval [] a = Ok (Z.of_nat (length a)).
Proof. by rewrite !editdistance_lev, lev_nil_r, lev_nil_l. Qed.

Lemma lev_cons_same {A} `{EqDecision A} (x : A) (a b : list A) :
  lev (x :: a) (x :: b) = lev a b.
Proof.
  apply Z.le_antisymm.
  - apply lev_least. replace (lev a b) with (lev a b + subst_cost x x)
      by (rewrite subst_cost_refl; lia).
    apply edit_match, lev_edit.
  - pose proof (lev_edit (x :: a) (x :: b)) as Hed.
    remember (lev (x :: a) (x :: b)) as d eqn:Hd. clear Hd.
    inversion Hed as [|x' a' b' n Hn|y' a' b' n Hn|x' y' a' b' n Hn]; subst.
    + assert (edit (x :: b) b (0 + 1)) as Hdel.
      { apply edit_delete. replace 0 with (lev b b) by apply lev_refl.
        apply lev_edit. }
      destruct (edit_compose _ _ _ Hn _ _ Hdel) as (k & Hk & Hle).
      apply lev_least in Hk. lia.
    + assert (edit a (x :: a) (0 + 1)) as Hins.
      { apply edit_insert. replace 0 with (lev a a) by apply lev_refl.
        apply lev_edit. }
      destruct (edit_compose _ _ _ Hins _ _ Hn) as (k & Hk & Hle).
      apply lev_least in Hk. lia.
    + apply lev_least in Hn. rewrite subst_cost_refl in *. lia.
Qed.

Lemma lev_app_same_l {A} `{EqDecision A} (p a b : list A) :
  lev (p ++ a) (p ++ b) = lev a b.
Proof.
  induction p as [|x p IH]; [done|]. by rewrite <-!app_comm_cons, lev_cons_same.
Qed.

Lemma lev_app_same_r {A} `{EqDecision A} (s a b : list A) :
  lev (a ++ s) (b ++ s) = lev a b.
Proof.
  rewrite <-lev_reverse, !reverse_app, lev_app_same_l. apply lev_reverse.
Qed.

(** Tokens the two lists share at their beginning and at their end do not
    count. *)
Theorem editdistance_common_affixes {A} `{EqDecision A} (p s a b : list A) :
  _editdistance_eval (p ++ a ++ s) (p ++ b ++ s) = _editdistance_eval a b.
Proof. by rewrite !editdistance_lev, lev_app_same_l, lev_app_same_r. Qed.

(** ** Further properties of the accumulator *)

(** Whatever exception [update] raises, the accumulator is left as it
    was. *)
Theorem update_failure_atomic self output target e :
  (update output target self).1 = Raise e →
  (update output target self).2 = self.
Proof.
  rewrite update_run. destruct (mapM decode_logits output); [|done].
  by case_decide.
Qed.

Lemma update_failure_atomic_witness :
  (update [wide_logits] ["e"] example_state).1 = Raise KeyError
  ∧ (update [wide_logits] ["e"] example_state).2 = example_state.
Proof.
  assert ((update [wide_logits] ["e"] example_state).1 = Raise KeyError) as Hrun
    by by vm_compute.
  split; [exact Hrun|].
  exact (update_failure_atomic example_state [wide_logits] ["e"] KeyError Hrun).
Defined.

Lemma mapM_app_ok {A B} (f : A → result B) l1 l2 k1 k2 :
  mapM f l1 = Ok k1 → mapM f l2 = Ok k2 → mapM f (l1 ++ l2) = Ok (k1 ++ k2).
Proof.
  rewrite !mapM_ok. apply Forall2_app.
Qed.

(** One call on two batches does what two consecutive calls do, when both
    succeed. *)
Theorem update_app self output1 output2 (target1 target2 : list string) :
  Forall (λ a, ∃ s, decode_logits a = Ok s) (output1 ++ output2) →
  length output1 = length target1 →
  length output2 = length target2 →
  update (output1 ++ output2) (target1 ++ target2) self
  = update output2 target2 (update output1 target1 self).2.
Proof.
  intros Hacc Hlen1 Hlen2. apply Forall_app in Hacc as [Hacc1 Hacc2].
  destruct (mapM_all_ok decode_logits output1 Hacc1) as [k1 Hk1].
  destruct (mapM_all_ok decode_logits output2 Hacc2) as [k2 Hk2].
  rewrite !update_run, (mapM_app_ok _ _ _ _ _ Hk1 Hk2), Hk1, Hk2.
  rewrite !length_app, !decide_True by lia. cbn [snd].
  rewrite fmap_app, zip_with_app, foldl_app; [done|].
  apply mapM_ok_length in Hk1. rewrite length_fmap. lia.
Qed.

Lemma update_app_witness :
  Forall (λ a, ∃ s, decode_logits a = Ok s)
    ([logits_of [6; 4; 5; 4; 6]%nat] ++ [logits_of [5; 5]%nat])
  ∧ update ([logits_of [6; 4; 5; 4; 6]%nat] ++ [logits_of [5; 5]%nat])
      (["T e E"] ++ ["E"]) __init__
    = update [logits_of [5; 5]%nat] ["E"]
        (update [logits_of [6; 4; 5; 4; 6]%nat] ["T e E"] __init__).2.
Proof.
  assert (Forall (λ a, ∃ s, decode_logits a = Ok s)
            ([logits_of [6; 4; 5; 4; 6]%nat] ++ [logits_of [5; 5]%nat])) as Hacc.
  { repeat constructor; apply decodable_decodes; by apply logits_of_decodable. }
  split; [exact Hacc|].
  exact (update_app __init__ _ _ ["T e E"] ["E"] Hacc eq_refl eq_refl).
Defined.

Lemma wrap64_add_l a b : wrap64 (wrap64 a + b) = wrap64 (a + b).
Proof.
  unfold wrap64. f_equal.
  replace (((a + 2 ^ 63) mod 2 ^ 64 - 2 ^ 63 + b + 2 ^ 63))
    with ((a + 2 ^ 63) mod 2 ^ 64 + b) by lia.
  replace (a + b + 2 ^ 63) with ((a + 2 ^ 63) + b) by lia.
  by rewrite Z.add_mod_idemp_l.
Qed.

Lemma wrap64_in_range z : in_int64 z → wrap64 z = z.
Proof.
  unfold in_int64, wrap64. intros Hz. rewrite Z.mod_small; lia.
Qed.

Lemma foldl_sample_step_totals pairs : ∀ self,
  _sum_words (foldl sample_step self pairs)
  = _sum_words self + total_words pairs.*1
  ∧ (pairs ≠ [] →
     _sum_score (foldl sample_step self pairs)
     = NpInt64 (wrap64 (int_val (_sum_score self) + total_cost pairs))).
Proof.
  induction pairs as [|p pairs IH]; intros self.
  - split; [simpl; lia|done].
  - destruct (IH (sample_step self p)) as [IHw IHs]. split.
    + simpl foldl. rewrite IHw, fmap_cons.
      cbn [sample_step _sum_words total_words]. lia.
    + intros _. simpl foldl. destruct pairs as [|q pairs].
      * cbn [foldl sample_step _sum_score total_cost]. unfold add_int64.
        by rewrite Z.add_0_r.
      * rewrite IHs by done. cbn [sample_step _sum_score add_int64 int_val].
        rewrite wrap64_add_l. cbn [total_cost]. do 2 f_equal. lia.
Qed.

(** A successful call adds to the word count the words of the decoded
    predictions, and to the cost the edit distances between the decoded
    predictions and the lower-cased targets, in 64-bit arithmetic; exactly
    so while the sum stays in the 64-bit range. *)
Theorem update_totals self output target decoded :
  mapM decode_logits output = Ok decoded →
  length output = length target →
  output ≠ [] →
  let pairs := zip decoded (str_lower <$> target) in
  let self' := (update output target self).2 in
  _sum_words self' = _sum_words self + total_words decoded
  ∧ _sum_score self'
    = NpInt64 (wrap64 (int_val (_sum_score self) + total_cost pairs))
  ∧ (in_int64 (int_val (_sum_score self) + total_cost pairs) →
     _sum_score self'
     = NpInt64 (int_val (_sum_score self) + total_cost pairs)).
Proof.
  intros Hdec Hlen Hne pairs self'. subst self'.
  rewrite update_run, Hdec, decide_True by done. cbn [snd]. fold pairs.
  assert (length decoded = length output) as Hlen' by by eapply mapM_ok_length.
  destruct (foldl_sample_step_totals pairs self) as [Hw Hs].
  assert (pairs.*1 = decoded) as Hfst.
  { unfold pairs. apply fst_zip. rewrite length_fmap. lia. }
  assert (pairs ≠ []) as Hpairs.
  { intros Hnil. rewrite Hnil in Hfst. subst decoded.
    destruct output; [done|discriminate]. }
  rewrite Hfst in Hw. rewrite Hw, (Hs Hpairs).
  split; [done|]. split; [done|]. intros Hrange. by rewrite wrap64_in_range.
Qed.

Lemma update_totals_witness :
  mapM decode_logits example_output = Ok ["t e t"; "e"]
  ∧ _sum_words example_state = 0 + total_words ["t e t"; "e"]
  ∧ _sum_score example_state
    = NpInt64 (0 + total_cost (zip ["t e t"; "e"] (str_lower <$> example_target))).
Proof.
  assert (mapM decode_logits example_output = Ok ["t e t"; "e"]) as Hdec
    by by vm_compute.
  split; [exact Hdec|].
  destruct (update_totals __init__ example_output example_target
              ["t e t"; "e"] Hdec eq_refl ltac:(discriminate))
    as (Hw & _ & Hs).
  split; [exact Hw|]. apply Hs. by vm_compute.
Defined.

(** [_get_metric_per_sample] never raises.  With an annotation of at least
    one word it returns the finite ratio it has stored as current value;
    with an annotation without words it returns the integer 0 while the
    current value it has stored is not a finite number. *)
Theorem sample_value_unguarded annotation prediction self :
  ∃ r, _get_metric_per_sample annotation prediction self
       = (Ok r, sample_step self (annotation, prediction))
    ∧ (word_count annotation ≠ 0 →
       r = _cur_score (sample_step self (annotation, prediction))
       ∧ ∃ q, r = Float (Finite q))
    ∧ (word_count annotation = 0 →
       r = Int (PyInt 0)
       ∧ (_cur_score (sample_step self (annotation, prediction)) = Float NaN
          ∨ _cur_score (sample_step self (annotation, prediction))
            = Float (Infinity false))).
Proof.
  eexists. split; [apply get_metric_per_sample_run|]. split.
  - intros Hw. rewrite decide_True by done. cbn [sample_step _cur_score fst snd].
    split; [done|]. unfold np_ratio. rewrite decide_False by done.
    by eexists.
  - intros Hw. rewrite decide_False by (intros Hne; by apply Hne).
    split; [done|]. cbn [sample_step _cur_score fst snd]. unfold np_ratio.
    rewrite decide_True by done.
    pose proof (lev_nonneg (str_split annotation) (str_split prediction)).
    case_decide; [by left|right]. by rewrite bool_decide_eq_false_2 by lia.
Qed.

Lemma sample_value_unguarded_witness :
  word_count "" = 0
  ∧ (_get_metric_per_sample "" "the cat" __init__).1 = Ok (Int (PyInt 0))
  ∧ _cur_score (_get_metric_per_sample "" "the cat" __init__).2
    = Float (Infinity false).
Proof.
  destruct (sample_value_unguarded "" "the cat" __init__) as (r & Hrun & _ & Hz).
  destruct (Hz eq_refl) as [-> _].
  split; [reflexivity|]. rewrite Hrun. split; [reflexivity|]. by vm_compute.
Defined.

(** After a successful call with at least one sample, the current value is
    numpy's ratio for the last pair: the edit distance between the last
    decoded prediction and the last lower-cased target, over the words of
    that prediction. *)
Theorem update_last_value self output target decoded s t :
  mapM decode_logits output = Ok decoded →
  length output = length target →
  last decoded = Some s →
  last target = Some t →
  _cur_score (update output target self).2
  = Float (np_ratio (lev (str_split s) (str_split (str_lower t))) (word_count s)).
Proof.
  intros Hdec Hlen Hs Ht.
  rewrite update_run, Hdec, decide_True by done. cbn [snd].
  apply mapM_ok_length in Hdec.
  apply last_Some in Hs as [ds ->]. apply last_Some in Ht as [ts ->].
  rewrite !length_app in *. simpl in *.
  rewrite fmap_app, zip_with_app by (rewrite length_fmap; lia).
  by rewrite foldl_app.
Qed.

Lemma update_last_value_witness :
  mapM decode_logits example_output = Ok ["t e t"; "e"]
  ∧ _cur_score example_state
    = Float (np_ratio (lev (str_split "e") (str_split (str_lower "E")))
               (word_count "e")).
Proof.
  assert (mapM decode_logits example_output = Ok ["t e t"; "e"]) as Hdec
    by by vm_compute.
  split; [exact Hdec|].
  exact (update_last_value __init__ example_output example_target
           ["t e t"; "e"] "e" "E" Hdec eq_refl eq_refl eq_refl).
Defined.

(** A call never lowers the cumulative word count, whether it succeeds or
    raises. *)
Theorem update_words_monotone self output target :
  _sum_words self ≤ _sum_words (update output target self).2.
Proof.
  rewrite update_run. destruct (mapM decode_logits output); [|done].
  case_decide; [|done]. apply foldl_sample_step_words.
Qed.

Lemma update_score_shape self output target :
  (∃ z, _sum_score self = NpInt64 z ∧ in_int64 z)
  ∨ (_sum_score self = PyInt 0 ∧ _sum_words self = 0) →
  (∃ z, _sum_score (update output target self).2 = NpInt64 z ∧ in_int64 z)
  ∨ (_sum_score (update output target self).2 = PyInt 0
     ∧ _sum_words (update output target self).2 = 0).
Proof.
  intros Hself. rewrite update_run.
  destruct (mapM decode_logits output) as [decoded|]; [|done].
  case_decide; [|done]. cbn [snd].
  destruct (zip decoded (str_lower <$> target)) as [|p pairs] eqn:Hpairs;
    [exact Hself|].
  left. destruct (foldl_sample_step_totals (p :: pairs) self) as [_ Hs].
  rewrite Hs by done.
  eexists. split; [done|]. unfold in_int64, wrap64.
  pose proof (Z.mod_pos_bound
                (int_val (_sum_score self) + total_cost (p :: pairs) + 2 ^ 63)
                (2 ^ 64)). lia.
Qed.

(** What every reachable accumulator satisfies: the metric name and the
    decoding vocabulary are those of the constructor, the word count is not
    negative, and the cumulative cost is either the Python integer 0 of a
    fresh or reset accumulator, whose word count is 0, or a 64-bit numpy
    integer. *)
Theorem reachable_invariant self :
  reachable self →
  _name self = "WER"
  ∧ _decoding_vocab self = dict_enumerate alphabet
  ∧ 0 ≤ _sum_words self
  ∧ ((∃ z, _sum_score self = NpInt64 z ∧ in_int64 z)
     ∨ (_sum_score self = PyInt 0 ∧ _sum_words self = 0)).
Proof.
  intros Hreach. split; [by apply reachable_name|].
  split; [|split; [by apply reachable_words_nonneg|]].
  - induction Hreach as [|self output target _ IH|self _ IH]; [done| |done].
    rewrite update_run. destruct (mapM decode_logits output); [|done].
    case_decide; [|done]. cbn [snd]. by rewrite foldl_sample_step_vocab.
  - induction Hreach as [|self output target _ IH|self _ IH].
    + by right.
    + by apply update_score_shape.
    + by right.
Qed.

Lemma reachable_invariant_witness :
  reachable example_state
  ∧ _name example_state = "WER"
  ∧ 0 ≤ _sum_words example_state.
Proof.
  assert (reachable example_state) as Hreach
    by apply reachable_update, reachable_init.
  split; [exact Hreach|].
  destruct (reachable_invariant example_state Hreach) as (Hn & _ & Hw & _).
  split; [exact Hn|exact Hw].
Defined.

(** ** Further properties of the decoder *)

Lemma decode_logits_stages a :
  decode_logits a
  = (token_ids ← token_ids_of a;
     tokens ← mapM (dict_getitem (dict_enumerate alphabet)) token_ids;
     Ok (tokens_text tokens)).
Proof.
  unfold decode_logits, token_ids_of. by destruct (np_argmax a).
Qed.

(** The line that splits the text at single spaces and joins the fields
    with single spaces again changes nothing: the decoder returns the same
    outcome without it, on every input. *)
Theorem decode_logits_rejoin_noop a :
  decode_logits a = decode_logits_without_rejoin a.
Proof.
  unfold decode_logits, decode_logits_without_rejoin.
  destruct (np_argmax a) as [ids|]; [|done]. cbn [mbind result_bind].
  destruct (iterate (np_squeeze ids)) as [token_ids|]; [|done].
  cbn [mbind result_bind].
  destruct (mapM _ token_ids) as [tokens|]; [|done].
  cbn [mbind result_bind]. cbv zeta. by rewrite join_split_sep.
Qed.

Lemma token_ids_of_ok a ids :
  token_ids_of a = Ok ids
  ↔ shape1 a ≠ 0%nat ∧ timesteps a ≠ 1%nat ∧ mapM argmax_row (data a) = Ok ids.
Proof.
  unfold token_ids_of, np_argmax, timesteps. case_decide as Hw.
  - split; [done|]. by intros [? _].
  - destruct (mapM argmax_row (data a)) as [ids'|e] eqn:Hids.
    + pose proof (mapM_ok_length _ _ _ Hids) as Hlen.
      cbn [mbind result_bind].
      destruct ids' as [|i [|j ids']]; cbn [np_squeeze iterate].
      * split; [intros [= <-]|intros (_ & _ & [= <-])]; [|done].
        split; [done|]. split; [|done]. simpl in Hlen. lia.
      * split; [done|]. intros (_ & Hne & _). simpl in Hlen. lia.
      * split; [intros [= <-]|intros (_ & _ & [= <-])]; [|done].
        split; [done|]. split; [|done]. simpl in Hlen. lia.
    + split; [done|]. by intros (_ & _ & ?).
Qed.

(** The decoder accepts a matrix exactly when its last axis is not empty,
    its number of timesteps is not one, and the index selected in every
    row is one of the alphabet. *)
Theorem decode_logits_accepts_iff a :
  (∃ s, decode_logits a = Ok s)
  ↔ shape1 a ≠ 0%nat
    ∧ timesteps a ≠ 1%nat
    ∧ Forall (λ row, ∃ i, argmax_row row = Ok i ∧ (i < length alphabet)%nat)
        (data a).
Proof.
  rewrite decode_logits_stages. split.
  - intros [s Hs].
    destruct (token_ids_of a) as [ids|] eqn:Hids; [|done].
    apply token_ids_of_ok in Hids as (Hw & Ht & Hids).
    split; [done|]. split; [done|]. cbn [mbind result_bind] in Hs.
    destruct (mapM _ ids) as [tokens|] eqn:Htok; [|done].
    apply mapM_ok in Hids. apply mapM_ok in Htok.
    apply Forall_lookup. intros k row Hrow.
    destruct (Forall2_lookup_l _ _ _ _ _ Hids Hrow) as (i & Hi & Harg).
    destruct (Forall2_lookup_l _ _ _ _ _ Htok Hi) as (t & _ & Hget).
    exists i. split; [done|]. unfold dict_getitem in Hget.
    rewrite lookup_dict_enumerate in Hget.
    destruct (alphabet !! i) eqn:Hl; [|done]. by apply lookup_lt_Some in Hl.
  - intros (Hw & Ht & Hrows).
    assert (∃ ids, mapM argmax_row (data a) = Ok ids
                   ∧ Forall (λ i, i < length alphabet)%nat ids)
      as (ids & Hids & Hlt).
    { induction Hrows as [|row rows (i & Hi & Hlt) _ (ids & IH & Hall)];
        [by exists []|].
      exists (i :: ids). split; [|by constructor].
      cbn [mapM]. rewrite Hi. cbn [mbind result_bind]. by rewrite IH. }
    assert (token_ids_of a = Ok ids) as -> by by apply token_ids_of_ok.
    cbn [mbind result_bind].
    destruct (mapM_all_ok (dict_getitem (dict_enumerate alphabet)) ids)
      as [tokens ->]; [|by eexists].
    eapply Forall_impl; [exact Hlt|]. intros i Hi. unfold dict_getitem.
    rewrite lookup_dict_enumerate.
    destruct (lookup_lt_is_Some_2 alphabet i Hi) as [t ->]. by eexists.
Qed.

Lemma decode_logits_accepts_iff_witness :
  (shape1 (logits_of [5; 4; 0; 4; 6]%nat) ≠ 0%nat
   ∧ timesteps (logits_of [5; 4; 0; 4; 6]%nat) ≠ 1%nat)
  ∧ ¬ (∃ s, decode_logits (logits_of [5]%nat) = Ok s).
Proof.
  pose proof (decode_logits_accepts_iff (logits_of [5; 4; 0; 4; 6]%nat)) as [H1 _].
  pose proof (decode_logits_accepts_iff (logits_of [5]%nat)) as [H2 _].
  split.
  - destruct H1 as (Hw & Ht & _); [by exists "e  t"; vm_compute|by split].
  - intros Hacc. by destruct (H2 Hacc) as (_ & Ht & _).
Defined.

(** The three ways the decoder fails: [ValueError] on an empty last axis,
    [TypeError] on a matrix with exactly one timestep, [KeyError] when a
    row selects an index outside the alphabet. *)
Theorem decode_logits_errors a :
  (shape1 a = 0%nat → decode_logits a = Raise ValueError)
  ∧ (rectangular a → shape1 a ≠ 0%nat → timesteps a = 1%nat →
     decode_logits a = Raise TypeError)
  ∧ (rectangular a → shape1 a ≠ 0%nat → timesteps a ≠ 1%nat →
     Exists (λ row, ∃ i, argmax_row row = Ok i ∧ (length alphabet ≤ i)%nat)
       (data a) →
     decode_logits a = Raise KeyError).
Proof.
  assert (rectangular a → shape1 a ≠ 0%nat →
          ∃ ids, mapM argmax_row (data a) = Ok ids) as Hids.
  { intros Hrect Hw. apply mapM_all_ok. eapply Forall_impl; [exact Hrect|].
    intros row Hrow. destruct (argmax_row_ok row) as (i & Hi & _); [|by eexists].
    intros ->. simpl in Hrow. congruence. }
  split; [|split].
  - intros Hw. unfold decode_logits, np_argmax. by rewrite decide_True.
  - intros Hrect Hw Ht. destruct (Hids Hrect Hw) as [ids Hids'].
    unfold decode_logits, np_argmax. rewrite decide_False, Hids' by done.
    apply mapM_ok_length in Hids'. unfold timesteps in Ht.
    destruct ids as [|i [|j ids]]; simpl in Hids'; try lia. done.
  - intros Hrect Hw Ht Hbad. destruct (Hids Hrect Hw) as [ids Hids'].
    rewrite decode_logits_stages.
    assert (token_ids_of a = Ok ids) as -> by by apply token_ids_of_ok.
    cbn [mbind result_bind].
    destruct (mapM _ ids) as [tokens|e] eqn:Htok.
    + exfalso. apply Exists_exists in Hbad as (row & Hin & i & Hi & Hge).
      apply list_elem_of_lookup in Hin as [k Hk].
      apply mapM_ok in Hids'. apply mapM_ok in Htok.
      destruct (Forall2_lookup_l _ _ _ _ _ Hids' Hk) as (i' & Hi' & Harg).
      destruct (Forall2_lookup_l _ _ _ _ _ Htok Hi') as (t & _ & Hget).
      assert (i' = i) as -> by congruence.
      unfold dict_getitem in Hget. rewrite lookup_dict_enumerate in Hget.
      destruct (alphabet !! i) eqn:Hl; [|done]. apply lookup_lt_Some in Hl. lia.
    + apply mapM_raise in Htok as (i & _ & Hget). unfold dict_getitem in Hget.
      destruct (_ !! i); [done|]. by injection Hget as <-.
Qed.

Lemma decode_logits_errors_witness :
  decode_logits {| shape1 := 0; data := [[]; []] |} = Raise ValueError
  ∧ decode_logits (logits_of [5]%nat) = Raise TypeError
  ∧ decode_logits wide_logits = Raise KeyError.
Proof.
  split; [|split].
  - by apply (decode_logits_errors {| shape1 := 0; data := [[]; []] |}).
  - apply (decode_logits_errors (logits_of [5]%nat)); [|done|done].
    repeat constructor.
  - apply (decode_logits_errors wide_logits); [|done|done|].
    + repeat constructor.
    + constructor. exists 32%nat. split; [by vm_compute|simpl; lia].
Defined.

(** *** Runs of equal tokens *)

Lemma groupby_head {A} `{EqDecision A} (x : A) l :
  ∃ g gs, groupby (x :: l) = (x, g) :: gs.
Proof.
  revert x. induction l as [|y l IH]; intros x; [by eexists _, _|].
  destruct (IH y) as (g & gs & Hg). cbn [groupby] in *. rewrite Hg.
  case_decide; [subst|]; by eexists _, _.
Qed.

Lemma groupby_keys {A} `{EqDecision A} (l : list A) :
  (groupby l).*1 = collapse_runs l.
Proof.
  induction l as [|x l IH]; [done|]. destruct l as [|y l]; [done|].
  destruct (groupby_head y l) as (g & gs & Hg).
  change (groupby (x :: y :: l)) with
    (match groupby (y :: l) with
     | (k, g) :: gs =>
         if decide (x = k) then (k, x :: g) :: gs else (x, [x]) :: (k, g) :: gs
     | [] => [(x, [x])]
     end).
  change (collapse_runs (x :: y :: l)) with
    (if decide (x = y) then collapse_runs (y :: l) else x :: collapse_runs (y :: l)).
  rewrite <-IH, Hg. by case_decide.
Qed.

Lemma collapse_runs_Forall {A} `{EqDecision A} (P : A → Prop) (l : list A) :
  Forall P l → Forall P (collapse_runs l).
Proof.
  induction 1 as [|x l Hx Hl IH]; [done|]. destruct l as [|y l]; [by constructor|].
  change (collapse_runs (x :: y :: l)) with
    (if decide (x = y) then collapse_runs (y :: l) else x :: collapse_runs (y :: l)).
  case_decide; [done|by constructor].
Qed.

Lemma dup_at_head {A} k (l : list A) : head (dup_at k l) = head l.
Proof. destruct l; [done|]. by destruct k. Qed.

Lemma collapse_runs_dup_at {A} `{EqDecision A} (l : list A) : ∀ k,
  collapse_runs (dup_at k l) = collapse_runs l.
Proof.
  induction l as [|x l IH]; intros k; [done|]. destruct k as [|k].
  - cbn [dup_at].
    change (collapse_runs (x :: x :: l)) with
      (if decide (x = x) then collapse_runs (x :: l) else x :: collapse_runs (x :: l)).
    by rewrite decide_True.
  - cbn [dup_at]. pose proof (dup_at_head k l) as Hhead. specialize (IH k).
    destruct l as [|y l]; [done|].
    destruct (dup_at k (y :: l)) as [|y' l'] eqn:Hdup; [done|].
    injection Hhead as ->.
    change (collapse_runs (x :: y :: l')) with
      (if decide (x = y) then collapse_runs (y :: l') else x :: collapse_runs (y :: l')).
    change (collapse_runs (x :: y :: l)) with
      (if decide (x = y) then collapse_runs (y :: l) else x :: collapse_runs (y :: l)).
    by rewrite IH.
Qed.

Lemma mapM_dup_at {A B} (f : A → result B) (l : list A) : ∀ k,
  mapM f (dup_at k l) = dup_at k <$> mapM f l.
Proof.
  induction l as [|x l IH]; intros k; [done|]. destruct k as [|k]; cbn [dup_at mapM].
  - fold (mapM f l). destruct (f x); [|done]. cbn [mbind result_bind].
    by destruct (mapM f l).
  - fold (mapM f l) (mapM f (dup_at k l)). rewrite IH.
    destruct (f x); [|done]. cbn [mbind result_bind]. by destruct (mapM f l).
Qed.

Lemma dup_at_length {A} (l : list A) : ∀ k,
  (length l ≤ length (dup_at k l))%nat.
Proof.
  induction l as [|x l IH]; intros k; [done|]. destruct k; simpl; [lia|].
  specialize (IH k). lia.
Qed.

Lemma dup_at_nil {A} k (l : list A) : dup_at k l = [] ↔ l = [].
Proof. destruct l; [done|]. by destruct k. Qed.

Lemma tokens_text_dup_at tokens k :
  tokens_text (dup_at k tokens) = tokens_text tokens.
Proof. unfold tokens_text. by rewrite !groupby_keys, collapse_runs_dup_at. Qed.

(** Repeating a timestep does not change what the decoder returns, for
    every matrix whose number of timesteps is not one. *)
Theorem decode_logits_repeat_timestep a k :
  timesteps a ≠ 1%nat →
  decode_logits (repeat_timestep k a) = decode_logits a.
Proof.
  intros Ht. rewrite !decode_logits_stages.
  assert (token_ids_of (repeat_timestep k a) = dup_at k <$> token_ids_of a) as ->.
  { unfold token_ids_of, np_argmax, repeat_timestep. cbn [shape1 data].
    case_decide; [done|]. rewrite mapM_dup_at.
    destruct (mapM argmax_row (data a)) as [ids|] eqn:Hids; [|done].
    apply mapM_ok_length in Hids. unfold timesteps in Ht.
    cbn [fmap result_fmap mbind result_bind].
    destruct ids as [|i [|j ids]]; [done|simpl in Hids; lia|].
    by destruct k as [|[|k]]. }
  destruct (token_ids_of a) as [ids|]; [|done].
  cbn [fmap result_fmap mbind result_bind]. rewrite mapM_dup_at.
  destruct (mapM _ ids) as [tokens|]; [|done].
  cbn [fmap result_fmap mbind result_bind]. by rewrite tokens_text_dup_at.
Qed.

Lemma decode_logits_repeat_timestep_witness :
  timesteps (logits_of [6; 5]%nat) ≠ 1%nat
  ∧ decode_logits (repeat_timestep 1 (logits_of [6; 5]%nat))
    = decode_logits (logits_of [6; 5]%nat)
  ∧ decode_logits (logits_of [6; 5]%nat) = Ok "te".
Proof.
  assert (timesteps (logits_of [6; 5]%nat) ≠ 1%nat) as Ht by done.
  split; [exact Ht|].
  split; [exact (decode_logits_repeat_timestep _ 1 Ht)|by vm_compute].
Defined.

Lemma tokens_of_padding n :
  mapM (dict_getitem (dict_enumerate alphabet)) (replicate n 0%nat)
  = Ok (replicate n pad_token).
Proof.
  assert (dict_getitem (dict_enumerate alphabet) 0%nat = Ok pad_token) as Hpad.
  { unfold dict_getitem. by rewrite lookup_dict_enumerate. }
  induction n as [|n IH]; [done|].
  cbn [mapM replicate].
  fold (mapM (dict_getitem (dict_enumerate alphabet)) (replicate n 0%nat)).
  by rewrite IH, Hpad.
Qed.

(** A matrix all of whose rows select the padding symbol decodes to the
    empty string. *)
Theorem decode_logits_padding_only a :
  shape1 a ≠ 0%nat →
  timesteps a ≠ 1%nat →
  Forall (λ row, argmax_row row = Ok 0%nat) (data a) →
  decode_logits a = Ok "".
Proof.
  intros Hw Ht Hrows. rewrite decode_logits_stages.
  assert (mapM argmax_row (data a) = Ok (replicate (length (data a)) 0%nat))
    as Hids.
  { induction Hrows as [|row rows Hrow _ IH]; [done|].
    cbn [mapM length replicate]. fold (mapM argmax_row rows).
    by rewrite Hrow, IH. }
  assert (token_ids_of a = Ok (replicate (length (data a)) 0%nat)) as ->
    by by apply token_ids_of_ok.
  cbn [mbind result_bind].
  assert (mapM (dict_getitem (dict_enumerate alphabet))
            (replicate (length (data a)) 0%nat)
          = Ok (replicate (length (data a)) pad_token)) as ->.
    by apply tokens_of_padding.
  cbn [mbind result_bind]. f_equal. unfold tokens_text.
  rewrite groupby_keys.
  assert (filter (λ t, t ≠ pad_token)
            (collapse_runs (replicate (length (data a)) pad_token)) = []) as ->.
  { pose proof (collapse_runs_Forall (λ t, t = pad_token) _
                  (Forall_replicate _ (length (data a)) pad_token eq_refl))
      as Hall.
    induction Hall as [|t l -> _ IH]; [done|].
    by rewrite filter_cons_False by (by intros Hne). }
  done.
Qed.

Lemma decode_logits_padding_only_witness :
  Forall (λ row, argmax_row row = Ok 0%nat) (data (logits_of [0; 0; 0]%nat))
  ∧ decode_logits (logits_of [0; 0; 0]%nat) = Ok "".
Proof.
  assert (Forall (λ row, argmax_row row = Ok 0%nat)
            (data (logits_of [0; 0; 0]%nat))) as Hrows.
  { repeat constructor. }
  split; [exact Hrows|].
  exact (decode_logits_padding_only (logits_of [0; 0; 0]%nat)
           ltac:(done) ltac:(done) Hrows).
Defined.

(** *** Lower-casing and stripping *)

Lemma lower_char_idem c : lower_char (lower_char c) = lower_char c.
Proof. by destruct c as [[] [] [] [] [] [] [] []]. Qed.

Lemma isspace_lower_char c : isspace (lower_char c) = isspace c.
Proof. by destruct c as [[] [] [] [] [] [] [] []]. Qed.

Lemma str_lower_idem s : str_lower (str_lower s) = str_lower s.
Proof.
  induction s as [|c s IH]; [done|]. simpl. by rewrite lower_char_idem, IH.
Qed.

Lemma str_is_empty_lower s : str_is_empty (str_lower s) = str_is_empty s.
Proof. by destruct s. Qed.

Lemma str_lstrip_lower s : str_lstrip (str_lower s) = str_lower (str_lstrip s).
Proof.
  induction s as [|c s IH]; [done|]. simpl. rewrite isspace_lower_char.
  by destruct (isspace c).
Qed.

Lemma str_rstrip_lower s : str_rstrip (str_lower s) = str_lower (str_rstrip s).
Proof.
  induction s as [|c s IH]; [done|]. simpl.
  rewrite isspace_lower_char, IH, str_is_empty_lower.
  by destruct (isspace c && str_is_empty (str_rstrip s)).
Qed.

Lemma str_strip_lower s : str_strip (str_lower s) = str_lower (str_strip s).
Proof. unfold str_strip. by rewrite str_lstrip_lower, str_rstrip_lower. Qed.

Lemma str_rstrip_idem s : str_rstrip (str_rstrip s) = str_rstrip s.
Proof.
  induction s as [|c s IH]; [done|]. simpl.
  destruct (isspace c && str_is_empty (str_rstrip s)) eqn:Hc; [done|].
  simpl. by rewrite IH, Hc.
Qed.

Lemma str_lstrip_rstrip_lstrip s :
  str_lstrip (str_rstrip (str_lstrip s)) = str_rstrip (str_lstrip s).
Proof.
  induction s as [|c s IH]; [done|]. simpl.
  destruct (isspace c) eqn:Hc; [done|]. simpl. rewrite Hc. simpl. by rewrite Hc.
Qed.

Lemma str_strip_idem s : str_strip (str_strip s) = str_strip s.
Proof.
  unfold str_strip. by rewrite str_lstrip_rstrip_lstrip, str_rstrip_idem.
Qed.

(** A decoded string is in lower case and carries no whitespace at either
    end: lower-casing it or stripping it again gives it back. *)
Theorem decode_logits_normalised a s :
  decode_logits a = Ok s → str_lower s = s ∧ str_strip s = s.
Proof.
  rewrite decode_logits_stages.
  destruct (token_ids_of a) as [token_ids|]; [|done]. cbn [mbind result_bind].
  destruct (mapM _ token_ids) as [tokens|]; [|done].
  cbn [mbind result_bind]. intros [= <-]. unfold tokens_text.
  rewrite join_split_sep. split.
  - apply str_lower_idem.
  - by rewrite str_strip_lower, str_strip_idem.
Qed.

Lemma decode_logits_normalised_witness :
  decode_logits (logits_of [4; 5; 4; 0; 4; 6; 4]%nat) = Ok "e  t"
  ∧ str_lower "e  t" = "e  t" ∧ str_strip "e  t" = "e  t".
Proof.
  assert (decode_logits (logits_of [4; 5; 4; 0; 4; 6; 4]%nat) = Ok "e  t")
    as Hdec by by vm_compute.
  split; [exact Hdec|]. exact (decode_logits_normalised _ _ Hdec).
Defined.

(** *** The index selected in a row *)




(** ** [compute_wer] *)

Lemma m_for_app {I} (xs ys : list I) (body : I → method unit) self :
  m_for (xs ++ ys) body self
  = match m_for xs body self with
    | (Ok _, self') => m_for ys body self'
    | (Raise e, self') => (Raise e, self')
    end.
Proof.
  revert self. induction xs as [|x xs IH]; intros self; [done|].
  cbn [app m_for]. unfold m_bind.
  destruct (body x self) as [[[]|e] self']; [apply IH|done].
Qed.

Section ComputeWerFacts.

Context {Model Inputs : Type}.
Implicit Types (dataset : list (@sample Inputs)) (model : Model).
Implicit Types (infer_fn : Model → @sample Inputs → result (list ndarray)).

Lemma score_sample_single model infer_fn (s : @sample Inputs) a d self :
  infer_fn model s = Ok [a] → decode_logits a = Ok d →
  score_sample model infer_fn s self
  = (Ok tt, sample_step self (d, str_lower s.1.2)).
Proof.
  intros Hinf Hdec. unfold score_sample, m_bind, m_lift. rewrite Hinf.
  rewrite update_run. cbn [mapM]. by rewrite Hdec.
Qed.

Lemma score_samples_run model infer_fn dataset decoded :
  single_batches model infer_fn dataset decoded →
  ∀ self,
    m_for dataset (score_sample model infer_fn) self
    = (Ok tt,
       foldl sample_step self
         (zip decoded ((λ s, str_lower s.1.2) <$> dataset))).
Proof.
  induction 1 as [|s d dataset decoded (a & Hinf & Hdec) _ IH]; intros self;
    [done|].
  cbn [m_for]. unfold m_bind.
  rewrite (score_sample_single _ _ _ _ _ _ Hinf Hdec). apply IH.
Qed.

End ComputeWerFacts.

(** When inference returns, for every sample, a batch of one matrix the
    decoder accepts, [compute_wer] returns the total edit cost between the
    decoded predictions and the lower-cased transcripts (in 64-bit
    arithmetic) over the total number of words of the decoded predictions,
    and the integer 0 when that number is 0. *)
Theorem compute_wer_single_batches {Model Inputs : Type}
    (dataset : list (@sample Inputs)) (model : Model) infer_fn decoded :
  single_batches model infer_fn dataset decoded →
  compute_wer dataset model infer_fn
  = Ok {[ "WER" :=
            if decide (total_words decoded = 0) then Int (PyInt 0)
            else Float (quotient
                          (wrap64 (total_cost
                             (zip decoded ((λ s, str_lower s.1.2) <$> dataset))))
                          (total_words decoded)) ]}.
Proof.
  intros Hgood. unfold compute_wer, m_bind.
  rewrite (score_samples_run _ _ _ _ Hgood), avg_value_run. cbn [fst].
  set (pairs := zip decoded ((λ s, str_lower s.1.2) <$> dataset)).
  destruct (foldl_sample_step_totals pairs __init__) as [Hw Hs].
  assert (pairs.*1 = decoded) as Hfst.
  { pose proof (Forall2_length _ _ _ Hgood). apply fst_zip.
    rewrite length_fmap. unfold sample in *. lia. }
  rewrite foldl_sample_step_name, Hw, Hfst. cbn [__init__ _name _sum_words].
  rewrite Z.add_0_l. f_equal. f_equal. case_decide as Hz; [done|].
  rewrite Hs; [done|]. intros Hnil. rewrite Hnil in Hfst. by subst decoded.
Qed.

Lemma compute_wer_single_batches_witness :
  single_batches tt (λ _ s, Ok [s.2])
    [((0%nat, "T e E"), logits_of [6; 4; 5; 4; 6]%nat);
     ((1%nat, "E"), logits_of [5; 5]%nat)]
    ["t e t"; "e"]
  ∧ compute_wer
      [((0%nat, "T e E"), logits_of [6; 4; 5; 4; 6]%nat);
       ((1%nat, "E"), logits_of [5; 5]%nat)]
      tt (λ _ s, Ok [s.2])
    = Ok {[ "WER" := Float (Finite (1 # 4)) ]}.
Proof.
  assert (single_batches tt (λ _ s, Ok [s.2])
            [((0%nat, "T e E"), logits_of [6; 4; 5; 4; 6]%nat);
             ((1%nat, "E"), logits_of [5; 5]%nat)]
            ["t e t"; "e"]) as Hgood.
  { repeat constructor; eexists; (split; [reflexivity|by vm_compute]). }
  split; [exact Hgood|].
  rewrite (compute_wer_single_batches _ tt _ _ Hgood). by vm_compute.
Defined.

(** [compute_wer] scores every sample against one transcript: the first
    sample for which inference returns a batch of accepted matrices that
    is not of size one makes it fail with the size mismatch. *)
Theorem compute_wer_batch_size {Model Inputs : Type}
    (before after : list (@sample Inputs)) (s : @sample Inputs)
    (model : Model) infer_fn decoded batch :
  single_batches model infer_fn before decoded →
  infer_fn model s = Ok batch →
  Forall (λ a, ∃ d, decode_logits a = Ok d) batch →
  length batch ≠ 1%nat →
  compute_wer (before ++ s :: after) model infer_fn = Raise AssertionError.
Proof.
  intros Hgood Hinf Hacc Hlen. unfold compute_wer, m_bind.
  rewrite m_for_app, (score_samples_run _ _ _ _ Hgood).
  cbn [m_for]. unfold m_bind, score_sample at 1, m_bind, m_lift.
  rewrite Hinf, update_run.
  destruct (mapM_all_ok decode_logits batch Hacc) as [k ->].
  by rewrite decide_False.
Qed.

Lemma compute_wer_batch_size_witness :
  compute_wer
    ([((0%nat, "T e E"), logits_of [6; 4; 5; 4; 6]%nat)]
     ++ ((1%nat, "E"), logits_of [5; 5]%nat) :: [])
    tt (λ _ s, if decide (s.1.1 = 0%nat) then Ok [s.2] else Ok [s.2; s.2])
  = Raise AssertionError.
Proof.
  apply (compute_wer_batch_size
           [((0%nat, "T e E"), logits_of [6; 4; 5; 4; 6]%nat)] []
           ((1%nat, "E"), logits_of [5; 5]%nat) tt
           (λ _ s, if decide (s.1.1 = 0%nat) then Ok [s.2] else Ok [s.2; s.2])
           ["t e t"] [logits_of [5; 5]%nat; logits_of [5; 5]%nat]).
  - repeat constructor. eexists. split; [reflexivity|by vm_compute].
  - reflexivity.
  - repeat constructor; exists "e"; by vm_compute.
  - done.
Defined.

(** ** The data loader *)

Lemma py_list_getitem_nat {A} (l : list A) (i : nat) :
  py_list_getitem l (Z.of_nat i) = list_getitem l i.
Proof.
  unfold py_list_getitem. cbv zeta.
  rewrite (decide_False (P := Z.of_nat i < 0)) by lia.
  case_decide as Hi; [by rewrite Nat2Z.id|].
  unfold list_getitem. rewrite lookup_ge_None_2; [done|lia].
Qed.

(** What [loader[index]] is: for an index in [-len, len), the label and
    the speech, with a batch axis, of the entry at [index], counted from
    the end when [index] is negative, from which [transform_fn] extracts
    the speech; for any other index an [IndexError]. *)
Theorem getitem_transform_fn self index :
  (∀ label speech,
     _ds self !! Z.to_nat (if decide (index < 0)
                           then index + Z.of_nat (__len__ self) else index)
     = Some (label, speech) →
     - Z.of_nat (__len__ self) ≤ index < Z.of_nat (__len__ self) →
     __getitem__ self index = Ok (label, {[ "inputs" := [speech] ]})
     ∧ (__getitem__ self index ≫= transform_fn) = Ok [speech])
  ∧ (index < - Z.of_nat (__len__ self) ∨ Z.of_nat (__len__ self) ≤ index →
     __getitem__ self index = Raise IndexError).
Proof.
  unfold __getitem__, py_list_getitem, __len__. cbv zeta. split.
  - intros label speech Hentry Hrange.
    rewrite decide_True by (case_decide; lia).
    unfold list_getitem. rewrite Hentry. cbn [mbind result_bind fst snd].
    split; [done|]. unfold transform_fn, dict_getitem. cbn [snd].
    by rewrite lookup_singleton_eq.
  - intros Hout. rewrite decide_False; [done|]. case_decide; lia.
Qed.

Lemma getitem_transform_fn_witness :
  __getitem__ {| samples_limit := 300; _data_dir := "d";
                 _ds := [((0%nat, "A B"), [1; 0]%Q); ((1%nat, "C"), [0]%Q)] |}
    (-1)
  = Ok ((1%nat, "C"), {[ "inputs" := [[0%Q]] ]})
  ∧ __getitem__ {| samples_limit := 300; _data_dir := "d";
                   _ds := [((0%nat, "A B"), [1; 0]%Q); ((1%nat, "C"), [0]%Q)] |}
      2
    = Raise IndexError.
Proof.
  pose proof (getitem_transform_fn
                {| samples_limit := 300; _data_dir := "d";
                   _ds := [((0%nat, "A B"), [1; 0]%Q); ((1%nat, "C"), [0]%Q)] |})
    as Hget.
  split.
  - destruct (Hget (-1)) as [Hin _].
    apply (Hin (1%nat, "C") [0%Q]); [reflexivity|unfold __len__; simpl; lia].
  - destruct (Hget 2) as [_ Hout]. apply Hout. unfold __len__. simpl. lia.
Defined.

Lemma iterate_getitem_from self (rest : list ((nat * string) * list Q)) :
  ∀ k : nat,
    drop k (_ds self) = rest →
    iterate_getitem (__getitem__ self) (S (length rest)) (Z.of_nat k)
    = Some (Ok ((λ e, (e.1, {[ "inputs" := np_expand_dims0 e.2 ]})) <$> rest)).
Proof.
  induction rest as [|e rest IH]; intros k Hdrop.
  - cbn [iterate_getitem length]. unfold __getitem__.
    rewrite py_list_getitem_nat. unfold list_getitem.
    rewrite lookup_ge_None_2; [done|].
    apply (f_equal length) in Hdrop. rewrite length_drop in Hdrop.
    simpl in Hdrop. lia.
  - assert (_ds self !! k = Some e) as Hk.
    { rewrite <-(Nat.add_0_r k), <-lookup_drop, Hdrop. done. }
    assert (drop (S k) (_ds self) = rest) as Hdrop'.
    { replace (S k) with (k + 1)%nat by lia. by rewrite <-drop_drop, Hdrop. }
    specialize (IH (S k) Hdrop').
    replace (Z.of_nat (S k)) with (Z.of_nat k + 1) in IH by lia.
    cbn [length]. set (fuel := S (length rest)) in *.
    cbn [iterate_getitem]. rewrite IH.
    unfold __getitem__. rewrite py_list_getitem_nat.
    unfold list_getitem. by rewrite Hk.
Qed.

(** Iterating over the loader ends after one more call of [__getitem__]
    than the data set has entries.  It yields one item per entry, in order,
    with the label of the entry, and [transform_fn] extracts from the items
    the speech of the entries, each with a batch axis. *)
Theorem loader_iteration self :
  ∃ items,
    iterate_getitem (__getitem__ self) (S (__len__ self)) 0 = Some (Ok items)
    ∧ items.*1 = (_ds self).*1
    ∧ mapM transform_fn items = Ok (np_expand_dims0 <$> (_ds self).*2).
Proof.
  eexists. split; [by apply (iterate_getitem_from self (_ds self) 0%nat)|].
  split.
  - by rewrite <-list_fmap_compose.
  - apply mapM_ok. rewrite <-!list_fmap_compose.
    apply Forall2_fmap, Forall_Forall2_diag, Forall_true. intros e.
    unfold transform_fn, dict_getitem, compose. cbn [snd].
    by rewrite lookup_singleton_eq.
Qed.
